(** * Gas.QuoteApi: the quote write transaction and the full text search

    A shallow embedding of the Elixir module [Gas.QuoteApi] (the context
    module behind the quote resolvers) together with the part of Ecto it
    drives: [Ecto.Multi], [Repo.transaction], [Repo.insert],
    [Repo.insert_all] and [Repo.all].

    Conventions.
    - An Elixir map with atom keys is a [gmap string _] keyed by the atom's
      name; a map with binary keys is a [gmap string _] keyed by the binary.
    - A call that can raise returns a [result]; [Raise e] is an exception
      that leaves the function.
    - The database is an explicit [Db] value threaded through every
      repository call. *)

From stdpp Require Import gmap strings list fin_maps pretty.
From Stdlib Require Import ZArith Ascii String Lia.

#[local] Set Warnings "-register-all".
#[local] Open Scope string_scope.
#[local] Open Scope Z_scope.
#[local] Open Scope list_scope.

(** ** Elixir values *)

(** The scalars that reach this module through the API boundary or come
    back from the database. *)
Inductive scalar :=
  | SNil
  | SInt (z : Z)
  | SStr (s : string)
  | SAtom (a : string).

(** An attribute of an input map: a scalar, or a list of scalars (the
    [tags] attribute). *)
Inductive value :=
  | VScalar (x : scalar)
  | VList (l : list scalar).

Inductive exn :=
  | FunctionClauseError
  | ArgumentError
  | KeyError
  | Protocol_UndefinedError
  | Ecto_ConstraintError
  | Ecto_Query_CastError
  | Postgrex_Error.

Inductive result (A : Type) :=
  | Return (a : A)
  | Raise (e : exn).
Arguments Return {A} a.
Arguments Raise {A} e.

#[global] Instance result_ret : MRet result := fun _ a => Return a.
#[global] Instance result_bind : MBind result := fun _ _ f m =>
  match m with
  | Return a => f a
  | Raise e => Raise e
  end.
#[global] Instance result_fmap : FMap result := fun _ _ f m =>
  match m with
  | Return a => Return (f a)
  | Raise e => Raise e
  end.

(** [Kernel.to_string/1], which string interpolation applies to its
    argument: [nil] is the empty string, an integer its decimal digits. *)
Definition to_string (x : scalar) : string :=
  match x with
  | SNil => ""
  | SInt z => pretty z
  | SStr s => s
  | SAtom a => a
  end.

Definition digit_of_ascii (c : ascii) : option Z :=
  let n := Z.of_nat (nat_of_ascii c) in
  if (48 <=? n) && (n <=? 57) then Some (n - 48) else None.

Fixpoint digits_to_Z (acc : Z) (s : string) : option Z :=
  match s with
  | EmptyString => Some acc
  | String c s' =>
      match digit_of_ascii c with
      | Some d => digits_to_Z (10 * acc + d) s'
      | None => None
      end
  end.

(** One or more decimal digits. *)
Definition unsigned_to_Z (s : string) : option Z :=
  match s with
  | EmptyString => None
  | _ => digits_to_Z 0 s
  end.

(** An optional sign followed by one or more decimal digits: the text
    accepted by [:erlang.binary_to_integer/1]. *)
Definition integer_of_string (s : string) : option Z :=
  match s with
  | String "-" s' => Z.opp <$> unsigned_to_Z s'
  | String "+" s' => unsigned_to_Z s'
  | _ => unsigned_to_Z s
  end.

(** [String.to_integer/1]: raises [ArgumentError] on any other text. *)
Definition String_to_integer (s : string) : result Z :=
  match integer_of_string s with
  | Some z => Return z
  | None => Raise ArgumentError
  end.

(** [Enum.map/2] with a function that may raise: elements are visited
    left to right and the first exception leaves the map. *)
Fixpoint Enum_map {A B : Type} (f : A → result B) (l : list A)
    : result (list B) :=
  match l with
  | [] => Return []
  | x :: l' =>
      match f x with
      | Return y =>
          match Enum_map f l' with
          | Return ys => Return (y :: ys)
          | Raise e => Raise e
          end
      | Raise e => Raise e
      end
  end.

(** ** Schemas and the database *)

Module Quote.
(** The fields of [%Quote{}] other than the primary key. *)
Record fields := mk_fields {
  text : option string;
  date : option string;
  page_start : option Z;
  page_end : option Z;
  volume : option string;
  issue : option string;
  extras : option string;
  source_id : option Z
}.

(** A persisted [%Quote{}]. *)
Record t := mk { id : Z; data : fields }.

(** [%Quote{}] *)
Definition empty : fields :=
  mk_fields None None None None None None None None.
End Quote.

Module QuoteTag.
Record t := mk {
  tag_id : Z;
  quote_id : Z;
  inserted_at : Z;
  updated_at : Z
}.
End QuoteTag.

Module Source.
Record t := mk {
  id : Z;
  author : string;
  topic : string
}.
End Source.

Module Tag.
Record t := mk { id : Z; text : string }.
End Tag.

(** The tables this module reads and writes, and the sequence that feeds
    [quotes.id]. *)
Record Db := mk_Db {
  quotes : list Quote.t;
  quote_tags : list QuoteTag.t;
  sources : list Source.t;
  tags : list Tag.t;
  quotes_id_seq : Z
}.

(** ** Ecto: changesets, multis and the repository *)

(** What [Repo.insert/1] looks at in an [%Ecto.Changeset{}] for a quote:
    validity, the field errors, the struct with the changes applied, and
    the constraints the changeset declares (by field name). *)
Record Changeset := mk_Changeset {
  valid : bool;
  errors : list (string * string);
  applied : Quote.fields;
  constraints : list string
}.

(** A value stored under a name in the changes of a multi. *)
Inductive change :=
  | CQuote (q : Quote.t)
  | CInsertAll (count : nat).
      (* {count, nil}: insert_all without :returning *)

(** [Ecto.Multi]: operations are run in the order they were piped in. *)
Inductive Multi :=
  | Multi_new
  | Multi_insert (m : Multi) (name : string) (cs : Changeset)
  | Multi_insert_all (m : Multi) (name : string) (entries : list QuoteTag.t)
  | Multi_merge (m : Multi) (f : gmap string change → result Multi).

(** How running a multi inside a transaction ends. The database is the
    one seen inside the transaction at that point. *)
Inductive run_result :=
  | RunOk (db : Db) (changes : gmap string change)
  | RunError (db : Db) (name : string) (cs : Changeset)
      (changes : gmap string change)
  | RunRaise (db : Db) (e : exn).

(** What [Repo.transaction/1] hands to its caller. *)
Inductive outcome :=
  | Ok (changes : gmap string change)
  | Error (name : string) (cs : Changeset) (changes : gmap string change)
  | Raised (e : exn).

Definition with_seq (db : Db) (n : Z) : Db :=
  mk_Db (quotes db) (quote_tags db) (sources db) (tags db) n.

Definition put_quote (db : Db) (q : Quote.t) : Db :=
  mk_Db (quotes db ++ [q]) (quote_tags db) (sources db) (tags db)
    (quotes_id_seq db).

Definition put_quote_tags (db : Db) (entries : list QuoteTag.t) : Db :=
  mk_Db (quotes db) (quote_tags db ++ entries) (sources db) (tags db)
    (quotes_id_seq db).

(** Rolling back restores every table; a sequence is not transactional
    and keeps the values it handed out. *)
Definition rollback (before after : Db) : Db :=
  with_seq before (quotes_id_seq after).

Definition add_error (cs : Changeset) (field msg : string) : Changeset :=
  mk_Changeset false (errors cs ++ [(field, msg)]) (applied cs)
    (constraints cs).

Section QuoteApi.

(** [Gas.Quote.changeset/2]: the schema module is outside this file. *)
Variable Quote_changeset : Quote.fields → gmap string value → Changeset.

(** The storage layer's constraints on the two tables written here.
    [quotes_violation db row] names the field of the constraint that
    refuses [row], if any; [quote_tags_violation db entries] tells
    whether the bulk insert of [entries] is refused. *)
Variable quotes_violation : Db → Quote.fields → option string.
Variable quote_tags_violation : Db → list QuoteTag.t → bool.

(** One operation of a multi: the database after it and its result. *)
Inductive op_result :=
  | OpOk (db : Db) (c : change)
  | OpError (db : Db) (cs : Changeset)
  | OpRaise (db : Db) (e : exn).

(** [Repo.insert/1] on a changeset. An invalid changeset is returned
    without touching the database. Otherwise the row takes the next
    value of the sequence; a constraint violation is turned into a
    changeset error when the changeset declares the constraint and is
    raised when it does not. *)
Definition Repo_insert (cs : Changeset) (db : Db) : op_result :=
  if valid cs then
    let id := quotes_id_seq db in
    let db1 := with_seq db (id + 1) in
    match quotes_violation db (applied cs) with
    | Some field =>
        if bool_decide (field ∈ constraints cs)
        then OpError db1 (add_error cs field "does not exist")
        else OpRaise db1 Ecto_ConstraintError
    | None =>
        let q := Quote.mk id (applied cs) in
        OpOk (put_quote db1 q) (CQuote q)
    end
  else OpError db cs.

(** [Repo.insert_all/2] of association rows. No entries: nothing is sent
    to the database. A violated constraint is raised by the adapter,
    there is no changeset to put it in. *)
Definition Repo_insert_all (entries : list QuoteTag.t) (db : Db)
    : op_result :=
  match entries with
  | [] => OpOk db (CInsertAll 0)
  | _ =>
      if quote_tags_violation db entries
      then OpRaise db Postgrex_Error
      else OpOk (put_quote_tags db entries) (CInsertAll (List.length entries))
  end.

Definition run_op (name : string) (r : op_result)
    (changes : gmap string change) : run_result :=
  match r with
  | OpOk db c => RunOk db (<[name := c]> changes)
  | OpError db cs => RunError db name cs changes
  | OpRaise db e => RunRaise db e
  end.

(** Running a multi: each operation sees the changes of the ones before
    it; the first failure stops the run. *)
Fixpoint run (m : Multi) (db : Db) (changes : gmap string change)
    : run_result :=
  match m with
  | Multi_new => RunOk db changes
  | Multi_insert m' name cs =>
      match run m' db changes with
      | RunOk db' ch => run_op name (Repo_insert cs db') ch
      | stopped => stopped
      end
  | Multi_insert_all m' name entries =>
      match run m' db changes with
      | RunOk db' ch => run_op name (Repo_insert_all entries db') ch
      | stopped => stopped
      end
  | Multi_merge m' f =>
      match run m' db changes with
      | RunOk db' ch =>
          match f ch with
          | Return merged => run merged db' ch
          | Raise e => RunRaise db' e
          end
      | stopped => stopped
      end
  end.

(** [Repo.transaction/1] on a multi: commit when every operation
    succeeded, roll back on an error tuple, roll back and re-raise on
    an exception. *)
Definition Repo_transaction (m : Multi) (db : Db) : Db * outcome :=
  match run m db ∅ with
  | RunOk db' changes => (db', Ok changes)
  | RunError db' name cs changes =>
      (rollback db db', Error name cs changes)
  | RunRaise db' e => (rollback db db', Raised e)
  end.

(** ** Gas.QuoteApi *)

Definition change_ (quote : Quote.fields) (attrs : gmap string value)
    : Changeset :=
  Quote_changeset quote attrs.

(** [Enum.map/2] over the [tags] attribute: only a list is enumerable. *)
Definition Enum_map_value {B : Type} (f : scalar → result B) (v : value)
    : result (list B) :=
  match v with
  | VList l => Enum_map f l
  | VScalar _ => Raise Protocol_UndefinedError
  end.

(** The association row built for one element of [tags]. *)
Definition quote_tag_entry (now id : Z) (tag : scalar)
    : result QuoteTag.t :=
  tag_id ← String_to_integer (to_string tag);
  mret (QuoteTag.mk tag_id id now now).

(** The function given to [Multi.merge/2]. [now] is the reading of
    [Timex.now()]. *)
Definition merge_quote_tags (now : Z) (tags : value)
    (changes : gmap string change) : result Multi :=
  match changes !! "quote" with
  | Some (CQuote q) =>
      quote_tags ← Enum_map_value (quote_tag_entry now (Quote.id q)) tags;
      mret (Multi_insert_all Multi_new "quote_tags" quote_tags)
  | _ => Raise FunctionClauseError
  end.

Definition create_with_tags (now : Z) (inputs : gmap string value)
    (db : Db) : Db * outcome :=
  match inputs !! "tags" with
  | Some tags =>
      Repo_transaction
        (Multi_merge
           (Multi_insert Multi_new "quote"
              (change_ Quote.empty (delete "tags" inputs)))
           (merge_quote_tags now tags))
        db
  | None => (db, Raised FunctionClauseError)
  end.

End QuoteApi.

(** ** The history of a storage: which quotes were created, with which tags *)

(** The tag identities an input declares. *)
Definition declared_tags (inputs : gmap string value) : list Z :=
  match inputs !! "tags" with
  | Some (VList l) => omap (λ tag, integer_of_string (to_string tag)) l
  | _ => []
  end.

(** The id of the quote a call created, if it created one. *)
Definition created (o : outcome) : option Z :=
  match o with
  | Ok changes =>
      match changes !! "quote" with
      | Some (CQuote q) => Some (Quote.id q)
      | _ => None
      end
  | _ => None
  end.

Definition record_call (inputs : gmap string value) (o : outcome)
    (log : list (Z * list Z)) : list (Z * list Z) :=
  match created o with
  | Some id => (id, declared_tags inputs) :: log
  | None => log
  end.

(** The states reached from a storage without quotes by calls of
    [create_with_tags], whatever their inputs and outcomes, each with the
    log of the creations that succeeded. *)
Inductive reachable
    (Quote_changeset : Quote.fields → gmap string value → Changeset)
    (quotes_violation : Db → Quote.fields → option string)
    (quote_tags_violation : Db → list QuoteTag.t → bool)
    : Db → list (Z * list Z) → Prop :=
  | reachable_init db :
      quotes db = [] → quote_tags db = [] →
      reachable Quote_changeset quotes_violation quote_tags_violation db []
  | reachable_call db log now inputs db' o :
      reachable Quote_changeset quotes_violation quote_tags_violation db log →
      create_with_tags Quote_changeset quotes_violation quote_tags_violation
        now inputs db = (db', o) →
      reachable Quote_changeset quotes_violation quote_tags_violation
        db' (record_call inputs o log).

Definition quote_exists (db : Db) (id : Z) : Prop :=
  ∃ q, q ∈ quotes db ∧ Quote.id q = id.

Definition association_exists (db : Db) (quote_id tag_id : Z) : Prop :=
  ∃ e, e ∈ quote_tags db ∧ QuoteTag.quote_id e = quote_id
       ∧ QuoteTag.tag_id e = tag_id.

Definition created_in (log : list (Z * list Z)) (id : Z) : Prop :=
  ∃ declared, (id, declared) ∈ log.

Definition declared_associations_exist (db : Db) (log : list (Z * list Z))
    (id : Z) : Prop :=
  ∀ declared, (id, declared) ∈ log →
    ∀ tag_id, tag_id ∈ declared → association_exists db id tag_id.

(** ** The quote schema and the constraints of the tables *)

Inductive cast (A : Type) :=
  | Unchanged
  | Cast (a : option A)
  | Invalid.
Arguments Unchanged {A}.
Arguments Cast {A} a.
Arguments Invalid {A}.

Definition cast_string (v : option value) : cast string :=
  match v with
  | None => Unchanged
  | Some (VScalar SNil) => Cast None
  | Some (VScalar (SStr s)) => Cast (Some s)
  | Some _ => Invalid
  end.

Definition cast_integer (v : option value) : cast Z :=
  match v with
  | None => Unchanged
  | Some (VScalar SNil) => Cast None
  | Some (VScalar (SInt z)) => Cast (Some z)
  | Some (VScalar (SStr s)) =>
      match integer_of_string s with
      | Some z => Cast (Some z)
      | None => Invalid
      end
  | Some _ => Invalid
  end.

Definition is_digit (c : ascii) : bool :=
  bool_decide (is_Some (digit_of_ascii c)).

(** The shape YYYY-MM-DD. *)
Definition iso_date (s : string) : bool :=
  match list_ascii_of_string s with
  | [y1; y2; y3; y4; h1; m1; m2; h2; d1; d2] =>
      forallb is_digit [y1; y2; y3; y4; m1; m2; d1; d2]
      && Ascii.eqb h1 "-" && Ascii.eqb h2 "-"
  | _ => false
  end.

Definition cast_date (v : option value) : cast string :=
  match cast_string v with
  | Cast (Some s) => if iso_date s then Cast (Some s) else Invalid
  | c => c
  end.

Definition put_cast {A : Type} (field : string) (c : cast A)
    (old : option A) : option A * list (string * string) :=
  match c with
  | Unchanged => (old, [])
  | Cast a => (a, [])
  | Invalid => (old, [(field, "is invalid")])
  end.

Definition blank (s : option string) : bool :=
  match s with
  | Some s => String.eqb s ""
  | None => true
  end.

Definition validate_required (field : string) (missing : bool)
    : list (string * string) :=
  if missing then [(field, "can't be blank")] else [].

(** Modelled from the spec: [Gas.Quote.changeset/2], of the schema module
    [Gas.Quote], which is not among the sources. Section 3 gives the
    fields: text (required), date (optional, ISO date), pageStart and
    pageEnd (optional integers), volume and issue (optional strings),
    extras (optional text), sourceId (required foreign key). Section 4.1
    gives the rules: text non-empty; sourceId must reference an existing
    source, which the storage layer enforces with a foreign key that is
    not checked in memory; section 7 has a violation of it returned as a
    constraint failure naming the field, so the changeset declares the
    constraint. *)
Definition Gas_Quote_changeset (quote : Quote.fields)
    (attrs : gmap string value) : Changeset :=
  let '(text, e1) :=
    put_cast "text" (cast_string (attrs !! "text")) (Quote.text quote) in
  let '(date, e2) :=
    put_cast "date" (cast_date (attrs !! "date")) (Quote.date quote) in
  let '(page_start, e3) :=
    put_cast "page_start" (cast_integer (attrs !! "page_start"))
      (Quote.page_start quote) in
  let '(page_end, e4) :=
    put_cast "page_end" (cast_integer (attrs !! "page_end"))
      (Quote.page_end quote) in
  let '(volume, e5) :=
    put_cast "volume" (cast_string (attrs !! "volume"))
      (Quote.volume quote) in
  let '(issue, e6) :=
    put_cast "issue" (cast_string (attrs !! "issue")) (Quote.issue quote) in
  let '(extras, e7) :=
    put_cast "extras" (cast_string (attrs !! "extras"))
      (Quote.extras quote) in
  let '(source_id, e8) :=
    put_cast "source_id" (cast_integer (attrs !! "source_id"))
      (Quote.source_id quote) in
  let errors :=
    e1 ++ e2 ++ e3 ++ e4 ++ e5 ++ e6 ++ e7 ++ e8
    ++ validate_required "text" (blank text)
    ++ validate_required "source_id" (bool_decide (source_id = None)) in
  mk_Changeset (bool_decide (errors = [])) errors
    (Quote.mk_fields text date page_start page_end volume issue extras
       source_id)
    ["source_id"].

Definition source_ids (db : Db) : list Z := Source.id <$> sources db.
Definition tag_ids (db : Db) : list Z := Tag.id <$> tags db.
Definition quote_ids (db : Db) : list Z := Quote.id <$> quotes db.

(** Modelled from the spec: the foreign key of [quotes.source_id]; the
    migrations are not among the sources. Section 4.1: sourceId must
    reference an existing source, enforced by a foreign-key constraint at
    the storage layer. *)
Definition quotes_source_id_fkey (db : Db) (row : Quote.fields)
    : option string :=
  match Quote.source_id row with
  | Some id =>
      if bool_decide (id ∈ source_ids db) then None else Some "source_id"
  | None => None
  end.

(** Modelled from the spec: the foreign keys of the join table
    [quote_tags]; the migrations are not among the sources. Section 4.1,
    step 5: the bulk insert fails when a tag id does not exist; section 3:
    an association is never without its owning quote. *)
Definition quote_tags_fkeys (db : Db) (entries : list QuoteTag.t) : bool :=
  negb (forallb
          (λ e, bool_decide (QuoteTag.tag_id e ∈ tag_ids db)
                && bool_decide (QuoteTag.quote_id e ∈ quote_ids db))
          entries).

(** [create_with_tags] over the schema and the constraints above. *)
Definition Gas_create_with_tags : Z → gmap string value → Db → Db * outcome :=
  create_with_tags Gas_Quote_changeset quotes_source_id_fkey quote_tags_fkeys.

(** An element of [tags] resolves to the tag whose id its text denotes. *)
Definition resolves_to (db : Db) (tag : scalar) (id : Z) : Prop :=
  integer_of_string (to_string tag) = Some id ∧ id ∈ tag_ids db.

(** ** Full text search *)

#[global] Instance scalar_eq_dec : EqDecision scalar.
Proof. solve_decision. Defined.

#[global] Instance scalar_countable : Countable scalar :=
  inj_countable'
    (λ x, match x with
          | SNil => inl ()
          | SInt z => inr (inl z)
          | SStr s => inr (inr (inl s))
          | SAtom a => inr (inr (inr a))
          end)
    (λ x, match x with
          | inl () => SNil
          | inr (inl z) => SInt z
          | inr (inr (inl s)) => SStr s
          | inr (inr (inr a)) => SAtom a
          end)
    (λ x, match x with SNil | _ => eq_refl end).

(** [Enum.group_by/2] with a key function that may raise. The entries are
    taken from the last to the first and each is put in front of its
    group, so a group lists its entries in their order in [l]. *)
Definition Enum_group_by {K : Type} `{Countable K} {A : Type}
    (key_fun : A → result K) (l : list A) : result (gmap K (list A)) :=
  foldr
    (λ entry acc,
       groups ← acc;
       key ← key_fun entry;
       mret (<[key := entry :: default [] (groups !! key)]> groups))
    (Return ∅) l.

(** The line feed that ends each line of a heredoc. *)
Definition nl : string := String "010"%char EmptyString.

(** The map literal of searched tables and columns. A map with binary
    keys is enumerated in the order of its keys. *)
Definition search_columns : list (string * list string) :=
  [ ("quotes", ["text"; "volume"; "issue"; "extras"]);
    ("source_types", ["name"]);
    ("sources", ["author"; "topic"; "publication"; "url"]);
    ("tags", ["text"]) ].

(** The heredoc of one sub-query. *)
Definition subquery (source column : string) : string :=
  "select id, " +:+ column +:+ " as text, '" +:+ source
  +:+ "' as source from " +:+ source +:+ nl
  +:+ "where " +:+ column +:+ " ilike $1" +:+ nl.

Definition search_sql : string :=
  String.concat " union "
    (flat_map (λ '(source, data), map (subquery source) data)
       search_columns).

Definition search_params (text : string) : list string :=
  ["%" +:+ text +:+ "%"].

(** What a call leaves behind besides its value: the statements sent to
    the repository and the messages logged. *)
Inductive event :=
  | Query (sql : string) (params : list string)
  | Log_info (text : string) (result : gmap scalar (list (gmap string scalar))).

Definition mk_row (id : Z) (source text : string) : gmap string scalar :=
  {[ "id" := SInt id; "source" := SAtom source; "text" := SStr text ]}.

(** The map literal that ends [full_text_search]. *)
Definition literal_result : gmap string (list (gmap string scalar)) :=
  {[ "quotes" :=
       [ mk_row 13 "quotes"
           "The most frequently used gasification reactors encountered in practice are fixed bed(updraft or downdraft) and fluidised bed (bubbling or circulating) reactors. Figure 2shows the working principle of these gasifier configurations. ";
         mk_row 17 "quotes"
           "All products pass through a high temperature reaction
zone at the base of the reactor, which explains why the tar level in downdraft
gasifiers tends to stay below 0.1% (1 g Nm-³).";
         mk_row 20 "quotes"
           "The product gas of fluidised bed reactors contains intermediate (between updraft and downdraft) tar
levels (∼10 g Nm-³).";
         mk_row 16 "quotes"
           "In the downdraft (co-current) configuration, the feedstock is supplied from
the top while gas is introduced at the sides above the grate. The raw product gas is
withdrawn below the grate." ];
     "tags" :=
       [ mk_row 19 "tags" "Disadvantage of downdraft gasifier";
         mk_row 18 "tags" "Advantage of downdraft gasifier";
         mk_row 17 "tags" "Description downdraft gasifier" ] ]}.

Section Search.

(** [Gas.Repo.execute_and_load/2]: runs a statement with its parameters
    and loads each row of the answer as a map from column name to value. *)
Variable execute_and_load : string → list string → list (gmap string scalar).

(** The atoms of the running system. *)
Variable atom_exists : string → bool.

(** [String.to_existing_atom/1] *)
Definition String_to_existing_atom (v : scalar) : result string :=
  match v with
  | SStr s => if atom_exists s then Return s else Raise ArgumentError
  | _ => Raise ArgumentError
  end.

(** The function mapped over the pairs of a loaded row. *)
Definition load_pair (kv : string * scalar) : result (string * scalar) :=
  let '(k, val) := kv in
  if String.eqb k "source" then
    a ← String_to_existing_atom val;
    mret ("source", SAtom a)
  else
    a ← String_to_existing_atom (SStr k);
    mret (a, val).

(** The function mapped over the loaded rows. *)
Definition load_row (map : gmap string scalar)
    : result (gmap string scalar) :=
  pairs ← Enum_map load_pair (map_to_list map);
  mret (list_to_map pairs).

(** [& &1.source] *)
Definition row_source (row : gmap string scalar) : result scalar :=
  match row !! "source" with
  | Some v => Return v
  | None => Raise KeyError
  end.

(** A call of [Repo.execute_and_load/2]: the repository records the
    statement and the parameters it is given and answers them. The only
    [Query] events of a run are those of such calls. *)
Definition Repo_execute_and_load (sql : string) (params : list string)
    : list event * list (gmap string scalar) :=
  ([Query sql params], execute_and_load sql params).

(** What the pipeline makes of an answer: [Enum.map] loads each row,
    [Enum.group_by] groups the loaded rows by the table they come from. *)
Definition group_rows (answer : list (gmap string scalar))
    : result (gmap scalar (list (gmap string scalar))) :=
  rows ← Enum_map load_row answer;
  Enum_group_by row_source rows.

(** The value bound to [result]: the rows of the answer, grouped by the
    table they come from. *)
Definition search_result (text : string)
    : result (gmap scalar (list (gmap string scalar))) :=
  group_rows (Repo_execute_and_load search_sql (search_params text)).2.

Definition full_text_search (text : string)
    : list event * result (gmap string (list (gmap string scalar))) :=
  let params := search_params text in
  let sql := search_sql in
  let '(queried, answer) := Repo_execute_and_load sql params in
  match group_rows answer with
  | Return result =>
      (queried ++ [Log_info text result], Return literal_result)
  | Raise e => (queried, Raise e)
  end.

End Search.

(** ** Reading quotes *)

(** The queries this module builds: the schema [Quote], possibly joined
    to its source with [s.id == ^id] added to the join condition. *)
Inductive Ecto_Query :=
  | From_Quote
  | Join_source (query : Ecto_Query) (id : value).

(** The cast of an interpolated value compared with a primary key. *)
Definition cast_id (v : value) : result Z :=
  match v with
  | VScalar (SInt z) => Return z
  | VScalar (SStr s) =>
      match integer_of_string s with
      | Some z => Return z
      | None => Raise Ecto_Query_CastError
      end
  | _ => Raise Ecto_Query_CastError
  end.

(** The sources an inner join pairs with a quote. *)
Definition joined_sources (db : Db) (id : Z) (q : Quote.t) : list Source.t :=
  filter
    (λ s, Quote.source_id (Quote.data q) = Some (Source.id s)
          ∧ Source.id s = id)
    (sources db).

(** [Repo.all/1]: one quote per row of the join. The rows come in the
    order of the storage; a query without [order_by] promises no order,
    and the list stands for the rows answered, each as often as the join
    yields it. *)
Fixpoint Repo_all (query : Ecto_Query) (db : Db) : result (list Quote.t) :=
  match query with
  | From_Quote => Return (quotes db)
  | Join_source query' v =>
      id ← cast_id v;
      rows ← Repo_all query' db;
      mret (flat_map (λ q, (λ _, q) <$> joined_sources db id q) rows)
  end.

(** [Map.get/2]: [nil] for a key that is not in the map. *)
Definition Map_get (map : gmap string value) (key : string) : value :=
  default (VScalar SNil) (map !! key).

(** [get_quotes_by/3] *)
Definition get_quotes_by3 (query : Ecto_Query) (id : value)
    : Ecto_Query * bool :=
  (Join_source query id, true).

(** [get_quotes_by/1]; [None] is the argument [nil]. *)
Definition get_quotes_by (inputs : option (gmap string value)) (db : Db)
    : result (list Quote.t) :=
  match inputs with
  | None => Repo_all From_Quote db
  | Some inputs =>
      let query := From_Quote in
      let '(query, _got_source) :=
        match Map_get inputs "source" with
        | VScalar SNil => (query, false)
        | source_id => get_quotes_by3 query source_id
        end in
      Repo_all query db
  end.

(** ** The search contract as the specification words it *)

(** The sub-query of a table and column, on one line. *)
Definition stated_subquery (table column : string) : string :=
  "select id, " +:+ column +:+ " as text, '" +:+ table
  +:+ "' as source from " +:+ table
  +:+ " where " +:+ column +:+ " ilike $1".

(** The configuration of searched tables and columns. *)
Definition stated_columns : list (string * string) :=
  [ ("quotes", "text"); ("quotes", "volume"); ("quotes", "issue");
    ("quotes", "extras");
    ("sources", "author"); ("sources", "topic");
    ("sources", "publication"); ("sources", "url");
    ("tags", "text");
    ("source_types", "name") ].

Definition is_space (c : ascii) : bool :=
  Ascii.eqb c " " || Ascii.eqb c "010" || Ascii.eqb c "009"
  || Ascii.eqb c "013".

(** The words of a statement: what is left of it when white space only
    separates. [word] is the word being read, reversed. *)
Fixpoint words_from (word : list ascii) (s : string) : list string :=
  let flush :=
    match word with
    | [] => []
    | _ => [string_of_list_ascii (rev word)]
    end in
  match s with
  | EmptyString => flush
  | String c s' =>
      if is_space c then flush ++ words_from [] s'
      else words_from (c :: word) s'
  end.

Definition words (s : string) : list string := words_from [] s.

(** The pairs of the source's configuration, in the order they are
    enumerated. *)
Definition search_pairs : list (string * string) :=
  flat_map (λ '(source, data), map (λ column, (source, column)) data)
    search_columns.

(** The buckets the contract names. *)
Definition stated_buckets : list string :=
  ["quotes"; "sources"; "tags"; "sourceTypes"].

(** The fields the contract gives a row. *)
Definition stated_row_fields : list string :=
  ["tid"; "text"; "source"; "column"].

(** A call failed: it returned an error tuple or raised. *)
Definition failed (o : outcome) : Prop :=
  match o with
  | Ok _ => False
  | _ => True
  end.

(** ** What the search statement answers *)

#[global] Instance exn_eq_dec : EqDecision exn.
Proof. solve_decision. Defined.

#[global] Instance result_eq_dec {A : Type} `{EqDecision A}
  : EqDecision (result A).
Proof. solve_decision. Defined.

(** The value of column [k] once its row is loaded: the table name under
    [source] becomes an atom, every other value is kept. *)
Definition atomise (k : string) (v : scalar) : scalar :=
  if String.eqb k "source" then
    match v with
    | SStr s => SAtom s
    | _ => v
    end
  else v.

(** A row of the answer to the search statement: its columns are those
    of the select list, and its [source] is a table name that is an atom
    of the running system. *)
Definition selected (atom_exists : string → bool)
    (raw : gmap string scalar) : Prop :=
  dom raw = {[ "id"; "text"; "source" ]}
  ∧ ∃ table, raw !! "source" = Some (SStr table)
             ∧ atom_exists table = true.

(** A row of the answer with every column atomised. *)
Definition loaded (raw : gmap string scalar) : gmap string scalar :=
  list_to_map ((λ kv, (kv.1, atomise kv.1 kv.2)) <$> map_to_list raw).

(** The shape of a row that the search computes or returns. *)
Definition row_shape (bucket : scalar) (row : gmap string scalar) : Prop :=
  dom row = {[ "id"; "text"; "source" ]}
  ∧ row !! "source" = Some bucket
  ∧ row !! "tid" = None
  ∧ row !! "column" = None.

(** The text of a row mentions [word]. *)
Definition mentions (word : string) (row : gmap string scalar) : Prop :=
  ∃ text, row !! "text" = Some (SStr text)
          ∧ is_Some (String.index 0 word text).

(** The rows of [l] whose key is [k], in their order in [l]. *)
Definition group_of {K : Type} `{EqDecision K} {A : Type}
    (key_fun : A → result K) (k : K) (l : list A) : list A :=
  filter (λ entry, key_fun entry = Return k) l.

(** A repository in which nothing matches, and one that answers with a
    tag. *)
Definition no_match (sql : string) (params : list string)
    : list (gmap string scalar) := [].

Definition one_tag (sql : string) (params : list string)
    : list (gmap string scalar) :=
  [ {[ "id" := SInt 19; "source" := SStr "tags";
       "text" := SStr "Disadvantage of downdraft gasifier" ]} ].

Definition every_atom (a : string) : bool := true.

(** ** Sample storage and inputs *)

(** A storage with one source and three tags, and no quote yet. *)
Definition sample_db : Db :=
  mk_Db [] []
    [Source.mk 1 "Basu" "Biomass gasification"]
    [Tag.mk 1 "Description downdraft gasifier";
     Tag.mk 2 "Advantage of downdraft gasifier";
     Tag.mk 3 "Disadvantage of downdraft gasifier"]
    1.

(** The input of the example in the documentation of [create_with_tags]. *)
Definition sample_inputs : gmap string value :=
  {[ "text" := VScalar (SStr "cool quote");
     "source_id" := VScalar (SStr "1");
     "tags" := VList [SStr "1"; SInt 2; SStr "3"] ]}.

(** The same quote with a tag that is not a number. *)
Definition unparsable_inputs : gmap string value :=
  {[ "text" := VScalar (SStr "cool quote");
     "source_id" := VScalar (SStr "1");
     "tags" := VList [SStr "1"; SStr "two"] ]}.

(** The same quote with an empty list of tags. *)
Definition untagged_inputs : gmap string value :=
  {[ "text" := VScalar (SStr "cool quote");
     "source_id" := VScalar (SStr "1");
     "tags" := VList [] ]}.

(** The same quote without the key [:tags]. *)
Definition tagless_inputs : gmap string value :=
  {[ "text" := VScalar (SStr "cool quote");
     "source_id" := VScalar (SStr "1") ]}.

(** A storage with two sources and three quotes. *)
Definition sample_library : Db :=
  mk_Db
    [ Quote.mk 13
        (Quote.mk_fields (Some "fixed bed and fluidised bed reactors")
           None None None None None None (Some 1));
      Quote.mk 16
        (Quote.mk_fields (Some "the downdraft configuration")
           None None None None None None (Some 2));
      Quote.mk 17
        (Quote.mk_fields (Some "the tar level in downdraft gasifiers")
           None None None None None None (Some 1)) ]
    []
    [ Source.mk 1 "Basu" "Biomass gasification";
      Source.mk 2 "Reed" "Handbook of downdraft gasifiers" ]
    []
    18.

(** ** The other functions of Gas.QuoteApi, and its resolver *)

(** [list/0] *)
Definition list_ (db : Db) : result (list Quote.t) := Repo_all From_Quote db.

(** The exceptions of [Repo.get!/2], besides those a cast can raise. *)
Inductive fetch_exn :=
  | Ecto_NoResultsError
  | Ecto_MultipleResultsError
  | Fetch_exn (e : exn).

Inductive fetched :=
  | Fetched (q : Quote.t)
  | Fetch_raise (e : fetch_exn).

(** [Repo.get!/2] on the schema [Quote]: the one row whose primary key
    is the id, cast to an integer. *)
Definition Repo_get_bang (id : value) (db : Db) : fetched :=
  match id with
  | VScalar SNil => Fetch_raise (Fetch_exn ArgumentError)
  | _ =>
      match cast_id id with
      | Return key =>
          match filter (λ q, Quote.id q = key) (quotes db) with
          | [] => Fetch_raise Ecto_NoResultsError
          | [q] => Fetched q
          | _ => Fetch_raise Ecto_MultipleResultsError
          end
      | Raise e => Fetch_raise (Fetch_exn e)
      end
  end.

(** [get!/1] *)
Definition get_bang (id : value) (db : Db) : fetched := Repo_get_bang id db.

(** What [Repo.insert/1] hands to its caller outside a multi. *)
Inductive inserted :=
  | Inserted (q : Quote.t)
  | Insert_error (cs : Changeset)
  | Insert_raise (e : exn).

(** The exceptions of the resolver, besides those of the context. *)
Inductive resolver_exn :=
  | CaseClauseError
  | Api_exn (e : exn).

(** What a resolver hands to the GraphQL layer. *)
Inductive resolution :=
  | Resolved (q : Quote.t)
  | Resolution_error (message : string)
  | Resolver_raise (e : resolver_exn).

Section QuoteApi_rest.

Variable Quote_changeset : Quote.fields → gmap string value → Changeset.
Variable quotes_violation : Db → Quote.fields → option string.
Variable quote_tags_violation : Db → list QuoteTag.t → bool.

(** [ResolversUtil.changeset_errors_to_string/1], of a module that is not
    among the sources. *)
Variable changeset_errors_to_string : Changeset → string.

(** [create_/1]. [Repo_insert] only ever answers with a quote. *)
Definition create_ (attrs : gmap string value) (db : Db) : Db * inserted :=
  match Repo_insert quotes_violation (Quote_changeset Quote.empty attrs) db
  with
  | OpOk db' (CQuote q) => (db', Inserted q)
  | OpOk db' (CInsertAll _) => (db', Insert_raise FunctionClauseError)
  | OpError db' cs => (db', Insert_error cs)
  | OpRaise db' e => (db', Insert_raise e)
  end.

(** [GasWeb.QuoteResolver.create_quote/3]. [args] is the second
    argument, the only one the resolver looks at. *)
Definition create_quote (now : Z) (args : gmap string (gmap string value))
    (db : Db) : Db * resolution :=
  match args !! "quote" with
  | Some inputs =>
      match create_with_tags Quote_changeset quotes_violation
              quote_tags_violation now inputs db with
      | (db', Ok changes) =>
          match changes !! "quote" with
          | Some (CQuote quote_) => (db', Resolved quote_)
          | _ => (db', Resolver_raise CaseClauseError)
          end
      | (db', Error failed_operation changeset _success) =>
          let changeset_string := changeset_errors_to_string changeset in
          (db', Resolution_error
                  ("{name: " +:+ failed_operation +:+ ", error: "
                   +:+ changeset_string +:+ "}"))
      | (db', Raised e) => (db', Resolver_raise (Api_exn e))
      end
  | None => (db, Resolver_raise (Api_exn FunctionClauseError))
  end.

End QuoteApi_rest.

(** A repository that answers with a source type, and a system in which
    the atom [:source_types] has not been created. *)
Definition one_source_type (sql : string) (params : list string)
    : list (gmap string scalar) :=
  [ {[ "id" := SInt 2; "source" := SStr "source_types";
       "text" := SStr "Journal" ]} ].

Definition atoms_of_module (a : string) : bool :=
  bool_decide (a ∈ ["id"; "text"; "source"; "quotes"; "tags"]).

(** An input whose text is blank, and a rendering of changeset errors
    for the examples. *)
Definition blank_inputs : gmap string value :=
  {[ "text" := VScalar (SStr "");
     "source_id" := VScalar (SStr "1");
     "tags" := VList [SStr "1"] ]}.

Definition sample_errors_to_string (cs : Changeset) : string :=
  String.concat ", " ((λ '(field, msg), field +:+ ": " +:+ msg) <$> errors cs).

(** ** The form of a new quote (routes/NewQuote/route.tsx)

    The component keeps the fields of the mutation in
    [state.formOutputs]; each validator of a form field answers with an
    error text (the empty text when there is none) and may set fields of
    [formOutputs]. A validator is a function from [formOutputs] to the
    error and the [formOutputs] that follow from its [setState]. *)

Module TagFrag.
Record t := mk { id : string; text : string }.
End TagFrag.

Module SourceFullFrag.
Record t := mk { id : string; display : option string }.
End SourceFullFrag.

Module PageType.
Record t := mk { start : option Z; end_ : option Z }.
End PageType.

Module VolumeIssueType.
Record t := mk { volume : option string; issue : option string }.
End VolumeIssueType.

(** [CreateQuoteInput] of gen.types.ts, every field of which may still
    be unset in [formOutputs]. *)
Module CreateQuoteInput.
Record t := mk {
  date : option string;
  extras : option string;
  issue : option string;
  pageEnd : option Z;
  pageStart : option Z;
  sourceId : option string;
  tags : option (list string);
  text : option string;
  volume : option string
}.

Definition set_text (v : option string) (o : t) : t :=
  mk (date o) (extras o) (issue o) (pageEnd o) (pageStart o) (sourceId o)
    (tags o) v (volume o).
Definition set_extras (v : option string) (o : t) : t :=
  mk (date o) v (issue o) (pageEnd o) (pageStart o) (sourceId o)
    (tags o) (text o) (volume o).
Definition set_sourceId (v : option string) (o : t) : t :=
  mk (date o) (extras o) (issue o) (pageEnd o) (pageStart o) v
    (tags o) (text o) (volume o).
Definition set_tags (v : option (list string)) (o : t) : t :=
  mk (date o) (extras o) (issue o) (pageEnd o) (pageStart o) (sourceId o)
    v (text o) (volume o).
Definition set_date (v : option string) (o : t) : t :=
  mk v (extras o) (issue o) (pageEnd o) (pageStart o) (sourceId o)
    (tags o) (text o) (volume o).
Definition set_page (start end_ : option Z) (o : t) : t :=
  mk (date o) (extras o) (issue o) end_ start (sourceId o)
    (tags o) (text o) (volume o).
Definition set_volume_issue (volume issue : option string) (o : t) : t :=
  mk (date o) (extras o) issue (pageEnd o) (pageStart o) (sourceId o)
    (tags o) (text o) volume.
End CreateQuoteInput.

(** A key of [FormValues] with its value; [None] is [null] or
    [undefined]. A date is the object the date control hands over: its
    own keys and their numbers. *)
Inductive form_value :=
  | Tags_value (tags : option (list TagFrag.t))
  | Source_value (source : option SourceFullFrag.t)
  | Quote_value (quote : option string)
  | Page_value (page : option PageType.t)
  | VolumeIssue_value (volumeIssue : option VolumeIssueType.t)
  | Date_value (date : option (gmap string (option Z)))
  | Extras_value (extras : option string).

Definition form_key (v : form_value) : string :=
  match v with
  | Tags_value _ => "tags"
  | Source_value _ => "source"
  | Quote_value _ => "quote"
  | Page_value _ => "page"
  | VolumeIssue_value _ => "volumeIssue"
  | Date_value _ => "date"
  | Extras_value _ => "extras"
  end.

(** A number that JavaScript takes for true: any but zero. *)
Definition truthy_number (n : option Z) : option Z :=
  match n with
  | Some 0 => None
  | other => other
  end.

(** A text that JavaScript takes for true: any but the empty one. *)
Definition truthy_string (s : option string) : option string :=
  match s with
  | Some EmptyString => None
  | other => other
  end.

Section NewQuote.

(** [moment({year, month, day})]: whether the moment is valid, and its
    format as YYYY-MM-DD. *)
Variable moment_isValid : Z → Z → Z → bool.
Variable moment_format : Z → Z → Z → string.

Definition validateQuote (quote : option string) (o : CreateQuoteInput.t)
    : string * CreateQuoteInput.t :=
  let error := "Enter a quote" in
  match truthy_string quote with
  | None => (error, o)
  | Some quote => ("", CreateQuoteInput.set_text (Some quote) o)
  end.

Definition validateExtras (extras : option string) (o : CreateQuoteInput.t)
    : string * CreateQuoteInput.t :=
  match truthy_string extras with
  | None => ("", o)
  | Some extras => ("", CreateQuoteInput.set_extras (Some extras) o)
  end.

Definition validateSource (source : option SourceFullFrag.t)
    (o : CreateQuoteInput.t) : string * CreateQuoteInput.t :=
  let error := "Select a source" in
  match source with
  | None => (error, o)
  | Some source =>
      ("", CreateQuoteInput.set_sourceId (Some (SourceFullFrag.id source)) o)
  end.

Definition validateTags (tags : option (list TagFrag.t))
    (o : CreateQuoteInput.t) : string * CreateQuoteInput.t :=
  let error := "Select at least one tag" in
  match tags with
  | None | Some [] => (error, o)
  | Some tags =>
      ("", CreateQuoteInput.set_tags (Some (TagFrag.id <$> tags)) o)
  end.

Definition validateDate (date : option (gmap string (option Z)))
    (o : CreateQuoteInput.t) : string * CreateQuoteInput.t :=
  let error := "Enter a valid date" in
  match date with
  | None => ("", CreateQuoteInput.set_date None o)
  | Some date =>
      if bool_decide (size date ≠ 3%nat) then (error, o)
      else
        match truthy_number (date !! "year" ≫= id) with
        | None => (error, o)
        | Some year =>
            match truthy_number (date !! "month" ≫= id) with
            | None => (error, o)
            | Some month =>
                match truthy_number (date !! "day" ≫= id) with
                | None => (error, o)
                | Some day =>
                    let isValid := moment_isValid year (month - 1) day in
                    (if isValid then "" else error,
                     CreateQuoteInput.set_date
                       (if isValid
                        then Some (moment_format year (month - 1) day)
                        else None) o)
                end
            end
        end
  end.

Definition validatePage (page : option PageType.t) (o : CreateQuoteInput.t)
    : string * CreateQuoteInput.t :=
  match page with
  | None => ("", o)
  | Some page =>
      ("", CreateQuoteInput.set_page (PageType.start page)
             (PageType.end_ page) o)
  end.

Definition validateVolumeIssue (volumeIssue : option VolumeIssueType.t)
    (o : CreateQuoteInput.t) : string * CreateQuoteInput.t :=
  match volumeIssue with
  | None => ("", o)
  | Some volumeIssue =>
      ("", CreateQuoteInput.set_volume_issue
             (VolumeIssueType.volume volumeIssue)
             (VolumeIssueType.issue volumeIssue) o)
  end.

(** The validator that [validate] finds under the name of the key. *)
Definition validator (v : form_value) (o : CreateQuoteInput.t)
    : string * CreateQuoteInput.t :=
  match v with
  | Tags_value tags => validateTags tags o
  | Source_value source => validateSource source o
  | Quote_value quote => validateQuote quote o
  | Page_value page => validatePage page o
  | VolumeIssue_value volumeIssue => validateVolumeIssue volumeIssue o
  | Date_value date => validateDate date o
  | Extras_value extras => validateExtras extras o
  end.

(** [validate]: [values] lists the keys of the form in the order
    [Object.keys] gives them. The answer is the object of errors, as its
    list of entries, and the [formOutputs] that follow. *)
Fixpoint validate (values : list form_value) (o : CreateQuoteInput.t)
    : list (string * string) * CreateQuoteInput.t :=
  match values with
  | [] => ([], o)
  | v :: values' =>
      let '(error, o') := validator v o in
      if String.eqb error "" then validate values' o'
      else ([(form_key v, error)], o')
  end.

(** What [formOutputs] holds of a form value that was accepted. *)
Definition recorded (v : form_value) (o : CreateQuoteInput.t) : Prop :=
  match v with
  | Quote_value quote =>
      ∃ s, quote = Some s ∧ s ≠ "" ∧ CreateQuoteInput.text o = Some s
  | Source_value source =>
      ∃ s, source = Some s
           ∧ CreateQuoteInput.sourceId o = Some (SourceFullFrag.id s)
  | Tags_value tags =>
      ∃ l, tags = Some l ∧ l ≠ []
           ∧ CreateQuoteInput.tags o = Some (TagFrag.id <$> l)
  | Date_value None => CreateQuoteInput.date o = None
  | Date_value (Some date) =>
      ∃ year month day,
        size date = 3%nat
        ∧ date !! "year" = Some (Some year) ∧ year ≠ 0
        ∧ date !! "month" = Some (Some month) ∧ month ≠ 0
        ∧ date !! "day" = Some (Some day) ∧ day ≠ 0
        ∧ moment_isValid year (month - 1) day = true
        ∧ CreateQuoteInput.date o
          = Some (moment_format year (month - 1) day)
  | Page_value None => True
  | Page_value (Some page) =>
      CreateQuoteInput.pageStart o = PageType.start page
      ∧ CreateQuoteInput.pageEnd o = PageType.end_ page
  | VolumeIssue_value None => True
  | VolumeIssue_value (Some volumeIssue) =>
      CreateQuoteInput.volume o = VolumeIssueType.volume volumeIssue
      ∧ CreateQuoteInput.issue o = VolumeIssueType.issue volumeIssue
  | Extras_value extras =>
      match truthy_string extras with
      | Some s => CreateQuoteInput.extras o = Some s
      | None => True
      end
  end.

End NewQuote.

(** A calendar for the examples: months of thirty days. *)
Definition sample_isValid (year month day : Z) : bool :=
  (0 <=? month) && (month <=? 11) && (1 <=? day) && (day <=? 30).

Definition two_digits (n : Z) : string :=
  if n <? 10 then "0" +:+ pretty n else pretty n.

Definition sample_format (year month day : Z) : string :=
  pretty year +:+ "-" +:+ two_digits (month + 1) +:+ "-" +:+ two_digits day.

Definition sample_outputs : CreateQuoteInput.t :=
  CreateQuoteInput.mk None None None None None None None None None.

Definition sample_values : list form_value :=
  [ Tags_value (Some [TagFrag.mk "1" "Description downdraft gasifier";
                      TagFrag.mk "3" "Disadvantage of downdraft gasifier"]);
    Source_value (Some (SourceFullFrag.mk "1" (Some "Basu")));
    Quote_value (Some "cool quote");
    Page_value None;
    VolumeIssue_value None;
    Date_value
      (Some {[ "year" := Some 2018; "month" := Some 7; "day" := Some 12 ]});
    Extras_value (Some "") ].

(** A form in which no tag is selected yet. *)
Definition unfinished_values : list form_value :=
  [ Source_value (Some (SourceFullFrag.mk "1" (Some "Basu")));
    Tags_value (Some []);
    Quote_value None;
    Extras_value (Some "see the figure") ].

(** The outputs of a form whose extras were filled in and then erased. *)
Definition earlier_outputs : CreateQuoteInput.t :=
  CreateQuoteInput.mk None (Some "see the figure") None None None None None
    None None.

(** * Properties *)

(** ** Integers and their decimal text *)

Lemma digit_of_pretty_N_char (d : N) :
  (d < 10)%N → digit_of_ascii (pretty_N_char d) = Some (Z.of_N d).
Proof.
  intros Hd.
  destruct d as [|p]; [done|].
  do 4 (destruct p as [p|p|]; try done); lia.
Qed.

Lemma digits_to_Z_pretty_N_go (x : N) (s : string) :
  (0 < x)%N →
  digits_to_Z 0 (pretty_N_go x s) = digits_to_Z (Z.of_N x) s.
Proof.
  revert s. induction (N.lt_wf_0 x) as [x _ IH]. intros s Hx.
  rewrite pretty_N_go_step by done.
  assert (Hd : (x `mod` 10 < 10)%N) by (apply N.mod_lt; lia).
  assert (Hx10 : Z.of_N x = 10 * Z.of_N (x `div` 10) + Z.of_N (x `mod` 10)).
  { rewrite (N.div_mod x 10) at 1 by lia. lia. }
  destruct (decide (x `div` 10 = 0)%N) as [Hq|Hq].
  - rewrite Hq, pretty_N_go_0. simpl.
    rewrite (digit_of_pretty_N_char _ Hd), Hx10, Hq. done.
  - rewrite IH.
    + simpl. by rewrite (digit_of_pretty_N_char _ Hd), Hx10.
    + apply N.div_lt; lia.
    + lia.
Qed.

Lemma unsigned_to_Z_integer s z :
  unsigned_to_Z s = Some z → integer_of_string s = Some z.
Proof.
  destruct s as [|c s]; [done|].
  destruct c as [[] [] [] [] [] [] [] []]; try done.
Qed.

Lemma unsigned_to_Z_pretty p :
  unsigned_to_Z (pretty (Npos p)) = Some (Zpos p).
Proof.
  assert (Hdigits : digits_to_Z 0 (pretty (Npos p)) = Some (Zpos p)).
  { unfold pretty, pretty_N. rewrite decide_False by done.
    by rewrite digits_to_Z_pretty_N_go. }
  unfold unsigned_to_Z. by destruct (pretty (Npos p)).
Qed.

Lemma integer_of_string_pretty (z : Z) : integer_of_string (pretty z) = Some z.
Proof.
  destruct z as [|p|p].
  - reflexivity.
  - apply unsigned_to_Z_integer, unsigned_to_Z_pretty.
  - change (pretty (Z.neg p)) with (String "-" (pretty (Npos p))).
    simpl. by rewrite unsigned_to_Z_pretty.
Qed.

(** A tag given as an integer resolves to the tag of that id. *)
Lemma resolves_to_integer db z :
  z ∈ tag_ids db → resolves_to db (SInt z) z.
Proof. intros Hz. split; [apply integer_of_string_pretty | done]. Qed.

(** ** Mapping with a function that may raise *)

Lemma Enum_map_Return_length {A B : Type} (f : A → result B) l ys :
  Enum_map f l = Return ys → List.length ys = List.length l.
Proof.
  revert ys. induction l as [|x l IH]; intros ys; simpl.
  - intros [= <-]. reflexivity.
  - destruct (f x); [|discriminate].
    destruct (Enum_map f l); [|discriminate].
    intros [= <-]. simpl. f_equal. by apply IH.
Qed.

Lemma Enum_map_Return_Forall2 {A B : Type} (f : A → result B) l ys :
  Enum_map f l = Return ys ↔ Forall2 (λ x y, f x = Return y) l ys.
Proof.
  revert ys. induction l as [|x l IH]; intros ys; simpl.
  - split.
    + intros [= <-]. constructor.
    + intros Hall. by inversion Hall.
  - split.
    + destruct (f x) as [y|] eqn:Hfx; [|discriminate].
      destruct (Enum_map f l) as [ys'|] eqn:Hl; [|discriminate].
      intros [= <-]. constructor; [done|]. by apply IH.
    + intros Hall. inversion Hall as [|? y ? ys' Hfx Hrest]; subst.
      rewrite Hfx. apply IH in Hrest. by rewrite Hrest.
Qed.

Lemma Enum_map_Raise {A B : Type} (f : A → result B) l e :
  Enum_map f l = Raise e → ∃ x, x ∈ l ∧ f x = Raise e.
Proof.
  induction l as [|x l IH]; simpl; [discriminate|].
  destruct (f x) as [y|e'] eqn:Hfx.
  - destruct (Enum_map f l) as [ys|e'']; [discriminate|].
    intros [= ->]. destruct IH as (x' & Hin & Hx'); [done|].
    exists x'. split; [by right | done].
  - intros [= ->]. exists x. split; [by left | done].
Qed.

Lemma Enum_map_elem_Raise {A B : Type} (f : A → result B) l x e :
  x ∈ l → f x = Raise e → ∃ e', Enum_map f l = Raise e'.
Proof.
  intros Hin Hfx. induction l as [|x' l IH]; [by inversion Hin|].
  simpl. destruct (f x') as [y|e1] eqn:Hfx'; [|by eexists].
  inversion Hin as [|? ? ? Hin']; subst; [congruence|].
  destruct (IH Hin') as [e' ->]. by eexists.
Qed.

(** ** The association rows *)

Lemma quote_tag_entry_Return now id tag e :
  quote_tag_entry now id tag = Return e ↔
  ∃ tag_id, integer_of_string (to_string tag) = Some tag_id
            ∧ e = QuoteTag.mk tag_id id now now.
Proof.
  unfold quote_tag_entry, String_to_integer.
  destruct (integer_of_string (to_string tag)) as [z|]; simpl.
  - split.
    + intros [= <-]. by exists z.
    + intros (z' & [= <-] & ->). reflexivity.
  - split; [discriminate|]. by intros (z' & [=] & _).
Qed.

Lemma quote_tag_entry_Raise now id tag e :
  quote_tag_entry now id tag = Raise e →
  integer_of_string (to_string tag) = None ∧ e = ArgumentError.
Proof.
  unfold quote_tag_entry, String_to_integer.
  destruct (integer_of_string (to_string tag)); simpl; [discriminate|].
  by intros [= <-].
Qed.

Lemma quote_tag_entries_tag_ids now id l entries :
  Enum_map (quote_tag_entry now id) l = Return entries →
  QuoteTag.tag_id <$> entries
  = omap (λ tag, integer_of_string (to_string tag)) l.
Proof.
  rewrite Enum_map_Return_Forall2.
  induction 1 as [|tag e l entries He _ IH]; [done|].
  apply quote_tag_entry_Return in He as (z & Hz & ->).
  csimpl. rewrite Hz. csimpl. by rewrite IH.
Qed.

Lemma quote_tag_entries_quote_id now id l entries :
  Enum_map (quote_tag_entry now id) l = Return entries →
  Forall (λ e, QuoteTag.quote_id e = id ∧ QuoteTag.inserted_at e = now
               ∧ QuoteTag.updated_at e = now) entries.
Proof.
  rewrite Enum_map_Return_Forall2.
  induction 1 as [|tag e l entries He _ IH]; constructor; [|done].
  by apply quote_tag_entry_Return in He as (z & Hz & ->).
Qed.

(** ** The write transaction, for any schema and any constraints *)

Section QuoteApi_facts.

Variable Quote_changeset : Quote.fields → gmap string value → Changeset.
Variable quotes_violation : Db → Quote.fields → option string.
Variable quote_tags_violation : Db → list QuoteTag.t → bool.

#[local] Abbreviation transaction :=
  (Repo_transaction quotes_violation quote_tags_violation).
#[local] Abbreviation create :=
  (create_with_tags Quote_changeset quotes_violation quote_tags_violation).
#[local] Abbreviation reach :=
  (reachable Quote_changeset quotes_violation quote_tags_violation).

(** A transaction that does not commit leaves every table as it was. *)
Lemma Repo_transaction_failed m db db' o :
  transaction m db = (db', o) → failed o →
  quotes db' = quotes db ∧ quote_tags db' = quote_tags db
  ∧ sources db' = sources db ∧ tags db' = tags db.
Proof.
  unfold Repo_transaction.
  destruct (run _ _ m db ∅); intros [= <- <-]; simpl; intros Hf;
    [contradiction | done | done].
Qed.

Lemma create_with_tags_failed now inputs db db' o :
  create now inputs db = (db', o) → failed o →
  quotes db' = quotes db ∧ quote_tags db' = quote_tags db
  ∧ sources db' = sources db ∧ tags db' = tags db.
Proof.
  unfold create_with_tags.
  destruct (inputs !! "tags") as [tags|].
  - apply Repo_transaction_failed.
  - by intros [= <- <-].
Qed.

(** What the transaction does, step by step, once [tags] is bound. *)
Lemma create_with_tags_steps now inputs tags db :
  inputs !! "tags" = Some tags →
  create now inputs db =
  match Repo_insert quotes_violation
          (Quote_changeset Quote.empty (delete "tags" inputs)) db with
  | OpOk db1 (CQuote q) =>
      match Enum_map_value (quote_tag_entry now (Quote.id q)) tags with
      | Return entries =>
          match Repo_insert_all quote_tags_violation entries db1 with
          | OpOk db2 c =>
              (db2, Ok (<["quote_tags" := c]> {["quote" := CQuote q]}))
          | OpError db2 cs =>
              (rollback db db2, Error "quote_tags" cs {["quote" := CQuote q]})
          | OpRaise db2 e => (rollback db db2, Raised e)
          end
      | Raise e => (rollback db db1, Raised e)
      end
  | OpOk db1 _ => (rollback db db1, Raised FunctionClauseError)
  | OpError db1 cs => (rollback db db1, Error "quote" cs ∅)
  | OpRaise db1 e => (rollback db db1, Raised e)
  end.
Proof.
  intros Htags. unfold create_with_tags, Repo_transaction.
  rewrite Htags. simpl. unfold change_.
  destruct (Repo_insert _ _ db) as [db1 [q|n]|db1 cs|db1 e]; simpl; try done.
  unfold merge_quote_tags. rewrite lookup_insert_eq.
  destruct (Enum_map_value _ tags) as [entries|e]; simpl; [|done].
  by destruct (Repo_insert_all _ entries db1).
Qed.

(** A call that succeeds appends the quote and one association row per
    element of [tags], in order, and nothing else. *)
Lemma create_with_tags_Ok now inputs db db' changes :
  create now inputs db = (db', Ok changes) →
  ∃ l q entries,
    inputs !! "tags" = Some (VList l)
    ∧ q = Quote.mk (quotes_id_seq db)
            (applied (Quote_changeset Quote.empty (delete "tags" inputs)))
    ∧ Enum_map (quote_tag_entry now (Quote.id q)) l = Return entries
    ∧ changes = <["quote_tags" := CInsertAll (List.length l)]>
                  {["quote" := CQuote q]}
    ∧ quotes db' = quotes db ++ [q]
    ∧ quote_tags db' = quote_tags db ++ entries
    ∧ sources db' = sources db ∧ tags db' = tags db
    ∧ quotes_id_seq db' = quotes_id_seq db + 1.
Proof.
  destruct (inputs !! "tags") as [tags|] eqn:Htags.
  2:{ unfold create_with_tags. by rewrite Htags. }
  rewrite (create_with_tags_steps _ _ _ _ Htags).
  unfold Repo_insert.
  destruct (valid _); [|discriminate].
  destruct (quotes_violation db _); [by case_bool_decide|].
  destruct tags as [x|l]; simpl; [discriminate|].
  destruct (Enum_map _ l) as [entries|] eqn:Hentries; [|discriminate].
  pose proof (Enum_map_Return_length _ _ _ Hentries) as Hlen.
  unfold Repo_insert_all. destruct entries as [|e entries].
  - intros [= <- <-]. exists l, (Quote.mk (quotes_id_seq db) (applied
      (Quote_changeset Quote.empty (delete "tags" inputs)))), [].
    simpl in *. rewrite <- Hlen, app_nil_r. done.
  - destruct (quote_tags_violation _ _); [discriminate|].
    intros [= <- <-]. eexists l, _, (e :: entries).
    rewrite <- Hlen. done.
Qed.

Lemma created_failed o : failed o → created o = None.
Proof. by destruct o. Qed.

(** The sequence never goes back, not even when the call rolls back. *)
Lemma create_with_tags_seq now inputs db db' o :
  create now inputs db = (db', o) →
  quotes_id_seq db ≤ quotes_id_seq db'.
Proof.
  destruct (inputs !! "tags") as [tags|] eqn:Htags.
  2:{ unfold create_with_tags. rewrite Htags. by intros [= <- <-]. }
  rewrite (create_with_tags_steps _ _ _ _ Htags).
  unfold Repo_insert.
  destruct (valid _); [|intros [= <- <-]; simpl; lia].
  destruct (quotes_violation db _);
    [case_bool_decide; intros [= <- <-]; simpl; lia|].
  simpl. destruct (Enum_map_value _ tags) as [entries|e];
    [|intros [= <- <-]; simpl; lia].
  unfold Repo_insert_all. destruct entries as [|e entries].
  - intros [= <- <-]. simpl. lia.
  - destruct (quote_tags_violation _ _); intros [= <- <-]; simpl; lia.
Qed.

(** What holds of a storage and the log of its creations: every quote
    row was created by a logged call, every logged creation has its quote
    row and all the associations it declared, and every association row
    was declared by the creation of its quote. *)
Lemma reachable_consistent db log :
  reach db log →
  (∀ q, q ∈ quotes db → created_in log (Quote.id q))
  ∧ (∀ id declared, (id, declared) ∈ log →
       quote_exists db id
       ∧ ∀ tag_id, tag_id ∈ declared → association_exists db id tag_id)
  ∧ (∀ e, e ∈ quote_tags db →
       ∃ declared, (QuoteTag.quote_id e, declared) ∈ log
                   ∧ QuoteTag.tag_id e ∈ declared).
Proof.
  induction 1 as [db Hq Ht|db log now inputs db' o _ IH Hcall].
  - rewrite Hq, Ht. split_and!.
    + intros q Hin. by inversion Hin.
    + intros id declared Hin. by inversion Hin.
    + intros e Hin. by inversion Hin.
  - destruct IH as (IHq & IHlog & IHe).
    unfold quote_exists, association_exists in *.
    destruct o as [changes|name cs changes|e].
    2,3: apply create_with_tags_failed in Hcall as (Hqs & Hts & _);
      [unfold record_call; simpl; rewrite Hqs, Hts; by split_and! | done].
    apply create_with_tags_Ok in Hcall
      as (l & q & entries & Htags & _ & Hentries & -> & Hqs & Hts & _).
    assert (Hrec : record_call inputs
              (Ok (<["quote_tags" := CInsertAll (List.length l)]>
                     {["quote" := CQuote q]})) log
            = (Quote.id q, QuoteTag.tag_id <$> entries) :: log).
    { unfold record_call, created, declared_tags.
      rewrite lookup_insert_ne, lookup_singleton_eq, Htags by done.
      by rewrite (quote_tag_entries_tag_ids _ _ _ _ Hentries). }
    rewrite Hrec, Hqs, Hts. clear Hrec.
    apply quote_tag_entries_quote_id in Hentries.
    rewrite Forall_forall in Hentries.
    split_and!.
    + intros q' [Hin|Hin]%elem_of_app.
      * destruct (IHq q' Hin) as [declared Hd].
        exists declared. by right.
      * apply list_elem_of_singleton in Hin as ->. eexists. by left.
    + intros id declared Hin. inversion Hin as [|? ? ? Hin']; subst.
      * split.
        -- exists q. split; [|done]. apply elem_of_app. right. by left.
        -- intros tag_id (e & -> & He)%list_elem_of_fmap.
           exists e. split_and!; [|by apply Hentries|done].
           apply elem_of_app. by right.
      * destruct (IHlog _ _ Hin') as ((q' & Hq' & Hid) & Hassoc). split.
        -- exists q'. split; [|done]. apply elem_of_app. by left.
        -- intros tag_id Htag. destruct (Hassoc _ Htag) as (e & He & ?).
           exists e. split; [|done]. apply elem_of_app. by left.
    + intros e [Hin|Hin]%elem_of_app.
      * destruct (IHe e Hin) as (declared & Hd & Htag).
        exists declared. split; [by right | done].
      * exists (QuoteTag.tag_id <$> entries). split.
        -- destruct (Hentries e Hin) as (-> & _). by left.
        -- apply list_elem_of_fmap. by exists e.
Qed.

(** Every quote row has an id the sequence has already handed out, and
    no two quote rows share an id. *)
Lemma reachable_fresh db log :
  reach db log →
  Forall (λ q, Quote.id q < quotes_id_seq db) (quotes db)
  ∧ NoDup (quote_ids db).
Proof.
  unfold quote_ids.
  induction 1 as [db Hq Ht|db log now inputs db' o _ [IHlt IHnd] Hcall].
  - rewrite Hq. split; constructor.
  - pose proof (create_with_tags_seq _ _ _ _ _ Hcall) as Hseq.
    destruct o as [changes|name cs changes|e].
    2,3: apply create_with_tags_failed in Hcall as (-> & _); [|done];
      (split; [|done]); eapply Forall_impl; [exact IHlt|];
      intros q ?; simpl in *; lia.
    apply create_with_tags_Ok in Hcall
      as (l & q & entries & _ & -> & _ & _ & -> & _ & _ & _ & ->).
    split.
    + apply Forall_app. split.
      * eapply Forall_impl; [exact IHlt|]. intros q ?. simpl in *. lia.
      * constructor; [simpl; lia | constructor].
    + rewrite fmap_app. apply NoDup_app. split_and!; [done| |].
      * intros id (q & -> & Hq)%list_elem_of_fmap Hin.
        rewrite Forall_forall in IHlt. specialize (IHlt q Hq).
        apply list_elem_of_singleton in Hin. simpl in *. lia.
      * apply NoDup_singleton.
Qed.

(** C1. Atomicity of [create_with_tags]: a call that fails, at whichever
    step (the quote's validation or constraints, the parsing of a tag,
    the insert of the associations), leaves the quote rows and the
    association rows of the storage as they were; and in every state
    reached by calls of [create_with_tags] a quote row exists if and only
    if it was created by a call and all the tag associations declared at
    its creation exist. *)
Theorem create_with_tags_atomic :
  (∀ now inputs db db' o,
     create_with_tags Quote_changeset quotes_violation quote_tags_violation
       now inputs db = (db', o) →
     failed o →
     quotes db' = quotes db ∧ quote_tags db' = quote_tags db)
  ∧ (∀ db log,
       reachable Quote_changeset quotes_violation quote_tags_violation
         db log →
       ∀ id, quote_exists db id
             ↔ created_in log id ∧ declared_associations_exist db log id).
Proof.
  split.
  - intros now inputs db db' o Hcall Hfailed.
    by destruct (create_with_tags_failed _ _ _ _ _ Hcall Hfailed) as (? & ? & _).
  - intros db log (Hq & Hlog & _)%reachable_consistent id. split.
    + intros (q & Hin & <-). split; [by apply Hq|].
      intros declared Hd. by apply (Hlog _ _ Hd).
    + intros [[declared Hd] _]. by apply (Hlog _ _ Hd).
Qed.

(** When the quote passes its validation and constraints, every element
    of [tags] parses and the association rows pass theirs, the call
    commits the quote and the rows. *)
Lemma create_with_tags_commits now inputs l db entries :
  let cs := Quote_changeset Quote.empty (delete "tags" inputs) in
  let q := Quote.mk (quotes_id_seq db) (applied cs) in
  let db1 := put_quote (with_seq db (quotes_id_seq db + 1)) q in
  inputs !! "tags" = Some (VList l) →
  valid cs = true →
  quotes_violation db (applied cs) = None →
  Enum_map (quote_tag_entry now (Quote.id q)) l = Return entries →
  entries = [] ∨ quote_tags_violation db1 entries = false →
  ∃ db',
    create now inputs db
    = (db', Ok (<["quote_tags" := CInsertAll (List.length l)]>
                  {["quote" := CQuote q]}))
    ∧ quotes db' = quotes db ++ [q]
    ∧ quote_tags db' = quote_tags db ++ entries
    ∧ sources db' = sources db ∧ tags db' = tags db.
Proof.
  intros cs q db1 Htags Hvalid Hquote Hentries Hrows.
  rewrite (create_with_tags_steps _ _ _ _ Htags).
  unfold Repo_insert. subst cs q db1. simpl in *.
  rewrite Hvalid, Hquote. simpl. rewrite Hentries.
  rewrite <- (Enum_map_Return_length _ _ _ Hentries).
  unfold Repo_insert_all. destruct entries as [|e entries].
  - eexists. split; [reflexivity|]. simpl. by rewrite app_nil_r.
  - destruct Hrows as [? | Hrows]; [done|]. rewrite Hrows. by eexists.
Qed.

(** C9. An input map without the key [:tags] matches no clause of
    [create_with_tags]: the call raises a function clause error, and
    returns neither [{:ok, _}] nor [{:error, _, _, _}], whatever else the
    map holds. *)
Theorem create_with_tags_requires_tags now inputs db :
  inputs !! "tags" = None →
  create_with_tags Quote_changeset quotes_violation quote_tags_violation
    now inputs db
  = (db, Raised FunctionClauseError).
Proof.
  intros Htags. unfold create_with_tags. by rewrite Htags.
Qed.

(** C5, as the code has it. When an element of the [tags] list does not
    parse to an integer, no quote row and no association row of the call
    survives. If the quote step succeeds, the parse failure leaves
    [create_with_tags] as a raised [ArgumentError], after the rollback;
    it is not returned as a value. A typed failure is returned only when
    the quote step itself fails first, and it is that step's. *)
Theorem create_with_tags_unparsable_tag now inputs l tag db :
  inputs !! "tags" = Some (VList l) →
  tag ∈ l →
  integer_of_string (to_string tag) = None →
  ∃ db' o,
    create_with_tags Quote_changeset quotes_violation quote_tags_violation
      now inputs db = (db', o)
    ∧ quotes db' = quotes db ∧ quote_tags db' = quote_tags db
    ∧ match Repo_insert quotes_violation
              (Quote_changeset Quote.empty (delete "tags" inputs)) db with
      | OpOk _ _ => o = Raised ArgumentError
      | OpError _ cs => o = Error "quote" cs ∅
      | OpRaise _ e => o = Raised e
      end.
Proof.
  intros Htags Hin Hparse.
  assert (Hmap : ∀ id, Enum_map (quote_tag_entry now id) l
                       = Raise ArgumentError).
  { intros id.
    assert (Htag : quote_tag_entry now id tag = Raise ArgumentError).
    { unfold quote_tag_entry, String_to_integer. by rewrite Hparse. }
    destruct (Enum_map_elem_Raise _ _ _ _ Hin Htag) as [e Hmap].
    rewrite Hmap. apply Enum_map_Raise in Hmap as (x & _ & Hx).
    by apply quote_tag_entry_Raise in Hx as (_ & ->). }
  destruct (create now inputs db) as [db' o] eqn:Hcall.
  exists db', o. split; [done|].
  assert (failed o ∧
    match Repo_insert quotes_violation
            (Quote_changeset Quote.empty (delete "tags" inputs)) db with
    | OpOk _ _ => o = Raised ArgumentError
    | OpError _ cs => o = Error "quote" cs ∅
    | OpRaise _ e => o = Raised e
    end) as [Hfailed Ho].
  { rewrite (create_with_tags_steps _ _ _ _ Htags) in Hcall.
    unfold Repo_insert in *.
    destruct (valid _); [|by injection Hcall as <- <-].
    destruct (quotes_violation db _) as [field|].
    - case_bool_decide; by injection Hcall as <- <-.
    - simpl in Hcall. rewrite Hmap in Hcall. by injection Hcall as <- <-. }
  by destruct (create_with_tags_failed _ _ _ _ _ Hcall Hfailed) as (? & ? & _).
Qed.

(** C10. With an empty list of tags and quote fields that pass the
    validation and the constraints of the quote step, the call succeeds:
    it appends one quote row and no association row, and returns
    [{:ok, _}] with the quote and a count of 0 under [:quote_tags]. *)
Theorem create_with_tags_no_tags now inputs db :
  let cs := Quote_changeset Quote.empty (delete "tags" inputs) in
  let q := Quote.mk (quotes_id_seq db) (applied cs) in
  inputs !! "tags" = Some (VList []) →
  valid cs = true →
  quotes_violation db (applied cs) = None →
  ∃ db',
    create_with_tags Quote_changeset quotes_violation quote_tags_violation
      now inputs db
    = (db', Ok (<["quote_tags" := CInsertAll 0]> {["quote" := CQuote q]}))
    ∧ quotes db' = quotes db ++ [q]
    ∧ quote_tags db' = quote_tags db.
Proof.
  intros cs q Htags Hvalid Hquote.
  destruct (create_with_tags_commits now inputs [] db [] Htags Hvalid Hquote)
    as (db' & Hcall & Hqs & Hts & _); [done | by left |].
  exists db'. by rewrite app_nil_r in Hts.
Qed.

End QuoteApi_facts.

(** ** The write transaction over the quote schema *)

(** The changeset of an input that gives a text and a source and none of
    the optional fields. *)
Lemma Gas_Quote_changeset_required attrs text source_id source :
  attrs !! "text" = Some (VScalar (SStr text)) →
  attrs !! "source_id" = Some (VScalar source_id) →
  Forall (λ field, attrs !! field = None)
    ["date"; "page_start"; "page_end"; "volume"; "issue"; "extras"] →
  text ≠ "" →
  cast_integer (Some (VScalar source_id)) = Cast (Some source) →
  Gas_Quote_changeset Quote.empty attrs
  = mk_Changeset true []
      (Quote.mk_fields (Some text) None None None None None None
         (Some source))
      ["source_id"].
Proof.
  intros Htext Hsource Hoptional Hne Hcast.
  repeat (apply Forall_cons in Hoptional as [? Hoptional]).
  unfold Gas_Quote_changeset, cast_date.
  repeat match goal with H : attrs !! _ = _ |- _ => rewrite H; clear H end.
  rewrite Hcast. destruct text as [|c text]; [done|]. reflexivity.
Qed.

Lemma quote_tag_entries_resolved db now id tags :
  Forall (λ tag, ∃ tag_id, resolves_to db tag tag_id) tags →
  ∃ entries,
    Enum_map (quote_tag_entry now id) tags = Return entries
    ∧ Forall2 (λ tag e, resolves_to db tag (QuoteTag.tag_id e)
                        ∧ QuoteTag.quote_id e = id) tags entries.
Proof.
  induction 1 as [|tag tags (tag_id & Hparse & Hexists) _ (entries & Hmap & Hall)].
  - exists []. split; [done | constructor].
  - exists (QuoteTag.mk tag_id id now now :: entries). split.
    + simpl. unfold quote_tag_entry at 1, String_to_integer.
      rewrite Hparse. simpl. by rewrite Hmap.
    + constructor; [|done]. by split.
Qed.

(** C2. For an input made of a non-empty text, a source id that
    references an existing source and tags that each resolve to an
    existing tag, [create_with_tags] appends exactly one quote row and
    one association row per element of [tags], each linking the new
    quote's id to the tag its element resolves to, and returns [{:ok, _}]
    with the created quote and the number of associations inserted. *)
Theorem create_with_tags_persists now db text source_id source tags :
  let inputs : gmap string value :=
    {[ "text" := VScalar (SStr text);
       "source_id" := VScalar source_id;
       "tags" := VList tags ]} in
  text ≠ "" →
  cast_integer (Some (VScalar source_id)) = Cast (Some source) →
  source ∈ source_ids db →
  Forall (λ tag, ∃ tag_id, resolves_to db tag tag_id) tags →
  ∃ db' q entries,
    Gas_create_with_tags now inputs db
    = (db', Ok (<["quote_tags" := CInsertAll (List.length tags)]>
                  {["quote" := CQuote q]}))
    ∧ quotes db' = quotes db ++ [q]
    ∧ quote_tags db' = quote_tags db ++ entries
    ∧ List.length entries = List.length tags
    ∧ Forall2 (λ tag e, resolves_to db tag (QuoteTag.tag_id e)
                        ∧ QuoteTag.quote_id e = Quote.id q) tags entries
    ∧ Quote.text (Quote.data q) = Some text
    ∧ Quote.source_id (Quote.data q) = Some source.
Proof.
  intros inputs Hne Hcast Hsource Htags.
  assert (Hcs : Gas_Quote_changeset Quote.empty (delete "tags" inputs)
                = mk_Changeset true []
                    (Quote.mk_fields (Some text) None None None None None
                       None (Some source))
                    ["source_id"]).
  { apply (Gas_Quote_changeset_required _ text source_id source);
      [done | done | | done | done].
    repeat constructor. }
  destruct (quote_tag_entries_resolved db now (quotes_id_seq db) tags Htags)
    as (entries & Hmap & Hall).
  destruct (create_with_tags_commits Gas_Quote_changeset
              quotes_source_id_fkey quote_tags_fkeys now inputs tags db
              entries) as (db' & Hcall & Hqs & Hts & _).
  - done.
  - by rewrite Hcs.
  - rewrite Hcs. unfold quotes_source_id_fkey. simpl.
    by rewrite bool_decide_eq_true_2.
  - done.
  - right. unfold quote_tags_fkeys. apply negb_false_iff, forallb_forall.
    intros e He%list_elem_of_In.
    destruct (proj1 (list_elem_of_lookup _ _) He) as [i Hi].
    destruct (Forall2_lookup_r _ _ _ _ _ Hall Hi)
      as (tag & _ & (_ & Hexists) & Hid).
    apply andb_true_iff. split; apply bool_decide_eq_true_2.
    + done.
    + rewrite Hid. unfold quote_ids. simpl. rewrite fmap_app.
      apply elem_of_app. right. by left.
  - exists db', (Quote.mk (quotes_id_seq db)
                   (applied (Gas_Quote_changeset Quote.empty
                               (delete "tags" inputs)))), entries.
    split_and!; try done.
    + by apply Forall2_length in Hall.
    + by rewrite Hcs.
    + by rewrite Hcs.
Qed.

(** ** The write transaction on the sample storage *)

Lemma create_with_tags_atomic_witness :
  let failing := Gas_create_with_tags 0 unparsable_inputs sample_db in
  let succeeding := Gas_create_with_tags 0 sample_inputs sample_db in
  (quotes failing.1 = quotes sample_db
   ∧ quote_tags failing.1 = quote_tags sample_db)
  ∧ (quote_exists succeeding.1 1
     ↔ created_in (record_call sample_inputs succeeding.2 []) 1
       ∧ declared_associations_exist succeeding.1
           (record_call sample_inputs succeeding.2 []) 1).
Proof.
  intros failing succeeding.
  destruct (create_with_tags_atomic Gas_Quote_changeset
              quotes_source_id_fkey quote_tags_fkeys) as [Hfailed Hstate].
  split.
  - apply (Hfailed 0 unparsable_inputs sample_db failing.1 failing.2).
    + apply surjective_pairing.
    + vm_compute. exact I.
  - apply Hstate.
    apply (reachable_call _ _ _ sample_db [] 0 sample_inputs).
    + apply reachable_init; reflexivity.
    + apply surjective_pairing.
Defined.

Lemma create_with_tags_persists_witness :
  ∃ db' q entries,
    Gas_create_with_tags 0 sample_inputs sample_db
    = (db', Ok (<["quote_tags" := CInsertAll 3]> {["quote" := CQuote q]}))
    ∧ quotes db' = quotes sample_db ++ [q]
    ∧ quote_tags db' = quote_tags sample_db ++ entries
    ∧ List.length entries = 3%nat
    ∧ Forall2 (λ tag e, resolves_to sample_db tag (QuoteTag.tag_id e)
                        ∧ QuoteTag.quote_id e = Quote.id q)
        [SStr "1"; SInt 2; SStr "3"] entries
    ∧ Quote.text (Quote.data q) = Some "cool quote"
    ∧ Quote.source_id (Quote.data q) = Some 1.
Proof.
  apply (create_with_tags_persists 0 sample_db "cool quote" (SStr "1") 1
           [SStr "1"; SInt 2; SStr "3"]).
  - discriminate.
  - reflexivity.
  - vm_compute. left.
  - repeat constructor.
    + exists 1. split; [reflexivity|]. vm_compute. left.
    + exists 2. split; [vm_compute; reflexivity|]. vm_compute. right. left.
    + exists 3. split; [reflexivity|]. vm_compute. right. right. left.
Defined.

(** On the sample storage the quote is valid, so the tag that is not a
    number makes the call raise: no failure value is returned. *)
Lemma create_with_tags_unparsable_tag_raises :
  (Gas_create_with_tags 0 unparsable_inputs sample_db).2
  = Raised ArgumentError
  ∧ ¬ ∃ name cs changes,
        (Gas_create_with_tags 0 unparsable_inputs sample_db).2
        = Error name cs changes.
Proof.
  assert (Hcall : (Gas_create_with_tags 0 unparsable_inputs sample_db).2
                  = Raised ArgumentError) by (vm_compute; reflexivity).
  split; [done|]. rewrite Hcall. by intros (name & cs & changes & [=]).
Qed.

Lemma create_with_tags_unparsable_tag_witness :
  ∃ db' o,
    Gas_create_with_tags 0 unparsable_inputs sample_db = (db', o)
    ∧ quotes db' = quotes sample_db
    ∧ quote_tags db' = quote_tags sample_db
    ∧ match Repo_insert quotes_source_id_fkey
              (Gas_Quote_changeset Quote.empty
                 (delete "tags" unparsable_inputs)) sample_db with
      | OpOk _ _ => o = Raised ArgumentError
      | OpError _ cs => o = Error "quote" cs ∅
      | OpRaise _ e => o = Raised e
      end.
Proof.
  apply (create_with_tags_unparsable_tag Gas_Quote_changeset
           quotes_source_id_fkey quote_tags_fkeys 0 unparsable_inputs
           [SStr "1"; SStr "two"] (SStr "two") sample_db).
  - reflexivity.
  - right. left.
  - reflexivity.
Defined.

Lemma create_with_tags_requires_tags_witness :
  Gas_create_with_tags 0 tagless_inputs sample_db
  = (sample_db, Raised FunctionClauseError).
Proof.
  apply (create_with_tags_requires_tags Gas_Quote_changeset
           quotes_source_id_fkey quote_tags_fkeys 0 tagless_inputs sample_db).
  reflexivity.
Defined.

Lemma create_with_tags_no_tags_witness :
  ∃ db',
    Gas_create_with_tags 0 untagged_inputs sample_db
    = (db', Ok (<["quote_tags" := CInsertAll 0]>
                  {["quote" :=
                      CQuote (Quote.mk 1
                                (applied (Gas_Quote_changeset Quote.empty
                                   (delete "tags" untagged_inputs))))]}))
    ∧ quotes db'
      = quotes sample_db
        ++ [Quote.mk 1 (applied (Gas_Quote_changeset Quote.empty
                                   (delete "tags" untagged_inputs)))]
    ∧ quote_tags db' = quote_tags sample_db.
Proof.
  apply (create_with_tags_no_tags Gas_Quote_changeset
           quotes_source_id_fkey quote_tags_fkeys 0 untagged_inputs
           sample_db).
  - reflexivity.
  - vm_compute. reflexivity.
  - vm_compute. reflexivity.
Defined.

(** ** Grouping *)

Lemma Enum_group_by_lookup {K : Type} `{Countable K} {A : Type}
    (key_fun : A → result K) (l : list A) groups :
  Enum_group_by key_fun l = Return groups →
  ∀ k, groups !! k
       = match group_of key_fun k l with
         | [] => None
         | group => Some group
         end.
Proof.
  unfold Enum_group_by.
  revert groups. induction l as [|x l IH]; intros groups; simpl.
  - intros [= <-] k. apply lookup_empty.
  - destruct (foldr _ _ l) as [groups'|]; [|discriminate]. simpl.
    destruct (key_fun x) as [key|] eqn:Hkey; [|discriminate]. simpl.
    intros [= <-] k. unfold group_of. rewrite filter_cons.
    destruct (decide (key = k)) as [->|Hne].
    + rewrite lookup_insert_eq, decide_True by done.
      rewrite (IH groups' eq_refl k). unfold group_of.
      by destruct (filter _ l).
    + rewrite lookup_insert_ne, decide_False by congruence.
      apply (IH groups' eq_refl k).
Qed.

Lemma Enum_group_by_total {K : Type} `{Countable K} {A : Type}
    (key_fun : A → result K) (l : list A) :
  Forall (λ x, ∃ k, key_fun x = Return k) l →
  ∃ groups, Enum_group_by key_fun l = Return groups.
Proof.
  unfold Enum_group_by.
  induction 1 as [|x l [k Hk] _ [groups IH]]; simpl.
  - by eexists.
  - rewrite IH. simpl. rewrite Hk. by eexists.
Qed.

Lemma Enum_map_total {A B : Type} (f : A → result B) (g : A → B) l :
  Forall (λ x, f x = Return (g x)) l → Enum_map f l = Return (g <$> l).
Proof.
  induction 1 as [|x l Hx _ IH]; simpl; [done|]. by rewrite Hx, IH.
Qed.

Lemma Enum_map_Return_fmap {A B : Type} (f : A → result B) (g : A → B) l ys :
  (∀ x y, f x = Return y → y = g x) →
  Enum_map f l = Return ys → ys = g <$> l.
Proof.
  intros Hfg. rewrite Enum_map_Return_Forall2.
  induction 1 as [|x y l ys Hxy _ IH]; [done|].
  csimpl. by rewrite (Hfg _ _ Hxy), IH.
Qed.

(** ** Loading the rows of an answer *)

Lemma loaded_lookup raw k : loaded raw !! k = atomise k <$> raw !! k.
Proof.
  unfold loaded.
  assert (Hfst : ((λ kv : string * scalar, (kv.1, atomise kv.1 kv.2))
                    <$> map_to_list raw).*1 = (map_to_list raw).*1).
  { rewrite <- list_fmap_compose. by apply list_fmap_ext. }
  destruct (raw !! k) as [v|] eqn:Hk; simpl.
  - apply elem_of_list_to_map_1.
    + rewrite Hfst. apply NoDup_fst_map_to_list.
    + apply list_elem_of_fmap. exists (k, v). split; [done|].
      by apply elem_of_map_to_list.
  - apply not_elem_of_list_to_map_1. rewrite Hfst.
    intros ([k' v] & -> & Hin)%list_elem_of_fmap.
    apply elem_of_map_to_list in Hin. simpl in *. congruence.
Qed.

Lemma loaded_dom raw : dom (loaded raw) = dom raw.
Proof.
  apply set_eq. intros k. rewrite !elem_of_dom, loaded_lookup.
  by rewrite fmap_is_Some.
Qed.

Section Search_facts.

Variable execute_and_load : string → list string → list (gmap string scalar).
Variable atom_exists : string → bool.

#[local] Abbreviation search := (search_result execute_and_load atom_exists).
#[local] Abbreviation full_search :=
  (full_text_search execute_and_load atom_exists).

Lemma load_pair_Return k v p :
  load_pair atom_exists (k, v) = Return p → p = (k, atomise k v).
Proof.
  unfold load_pair, atomise, String_to_existing_atom.
  destruct (String.eqb k "source") eqn:Hk.
  - apply String.eqb_eq in Hk as ->.
    destruct v as [|z|s|a]; simpl; try discriminate.
    destruct (atom_exists s); simpl; [|discriminate]. by intros [= <-].
  - destruct (atom_exists k); simpl; [|discriminate]. by intros [= <-].
Qed.

Lemma load_row_Return raw row :
  load_row atom_exists raw = Return row → row = loaded raw.
Proof.
  unfold load_row, loaded.
  destruct (Enum_map _ (map_to_list raw)) as [pairs|] eqn:Hpairs;
    simpl; [|discriminate].
  intros [= <-]. f_equal.
  apply (Enum_map_Return_fmap (load_pair atom_exists)); [|done].
  intros [k v] p. apply load_pair_Return.
Qed.

Lemma load_row_selected raw :
  atom_exists "id" = true → atom_exists "text" = true →
  selected atom_exists raw →
  load_row atom_exists raw = Return (loaded raw).
Proof.
  intros Hid Htext (Hdom & table & Hsource & Htable).
  unfold load_row, loaded.
  rewrite (Enum_map_total _ (λ kv, (kv.1, atomise kv.1 kv.2))); [done|].
  apply Forall_forall. intros [k v] Hkv%elem_of_map_to_list. simpl.
  assert (Hk : k ∈ dom raw) by (apply elem_of_dom; eauto).
  rewrite Hdom in Hk.
  unfold load_pair, atomise, String_to_existing_atom.
  apply elem_of_union in Hk as [[Hk|Hk]%elem_of_union|Hk];
    apply elem_of_singleton in Hk as ->; simpl.
  - by rewrite Hid.
  - by rewrite Htext.
  - rewrite Hsource in Hkv. injection Hkv as <-. by rewrite Htable.
Qed.

Lemma row_source_loaded raw table :
  raw !! "source" = Some (SStr table) →
  row_source (loaded raw) = Return (SAtom table).
Proof.
  intros Hsource. unfold row_source. by rewrite loaded_lookup, Hsource.
Qed.

(** The rows the search loads are the rows of the answer, atomised. *)
Lemma search_result_Return text result :
  search text = Return result →
  ∀ k, result !! k
       = match group_of row_source k
                 (loaded <$> execute_and_load search_sql (search_params text))
         with
         | [] => None
         | group => Some group
         end.
Proof.
  unfold search_result, group_rows, Repo_execute_and_load. simpl.
  destruct (Enum_map _ _) as [rows|] eqn:Hrows; simpl; [|discriminate].
  apply (Enum_map_Return_fmap _ loaded) in Hrows as ->;
    [|apply load_row_Return].
  apply Enum_group_by_lookup.
Qed.

(** The search returns whenever the repository answers the statement
    with rows of its select list. *)
Lemma search_result_total text :
  atom_exists "id" = true → atom_exists "text" = true →
  Forall (selected atom_exists)
    (execute_and_load search_sql (search_params text)) →
  ∃ result, search text = Return result.
Proof.
  intros Hid Htext Hanswer.
  unfold search_result, group_rows, Repo_execute_and_load. simpl.
  rewrite (Enum_map_total _ loaded).
  2:{ eapply Forall_impl; [exact Hanswer|].
      intros raw. by apply load_row_selected. }
  simpl. apply Enum_group_by_total.
  apply Forall_fmap. eapply Forall_impl; [exact Hanswer|].
  intros raw (_ & table & Hsource & _). simpl.
  exists (SAtom table). by apply row_source_loaded.
Qed.

(** The search in terms of the value bound to [result]. *)
Lemma full_text_search_eq text :
  full_search text
  = match search text with
    | Return result =>
        ([Query search_sql (search_params text); Log_info text result],
         Return literal_result)
    | Raise e => ([Query search_sql (search_params text)], Raise e)
    end.
Proof. reflexivity. Qed.

Lemma full_text_search_of_result text result :
  search text = Return result →
  full_search text
  = ([Query search_sql (search_params text); Log_info text result],
     Return literal_result).
Proof. intros Hresult. by rewrite full_text_search_eq, Hresult. Qed.

Lemma full_text_search_Return text v :
  (full_search text).2 = Return v → v = literal_result.
Proof.
  rewrite full_text_search_eq. destruct (search_result _ _ text); simpl.
  - by intros [= <-].
  - discriminate.
Qed.

(** C4, as the code has it. For every input string, the aggregation that
    the search computes and logs holds a bucket for exactly the tables
    with a matching row: under the atom of a table it has the rows of the
    answer that come from that table, in the order of the answer, and a
    table without a matching row has no bucket at all, not an empty one.
    When nothing matches in any table the aggregation is the empty
    map. *)
Theorem search_result_buckets text :
  let answer := execute_and_load search_sql (search_params text) in
  atom_exists "id" = true → atom_exists "text" = true →
  Forall (selected atom_exists) answer →
  ∃ result,
    search_result execute_and_load atom_exists text = Return result
    ∧ (∀ bucket,
         result !! bucket
         = match group_of row_source bucket (loaded <$> answer) with
           | [] => None
           | group => Some group
           end)
    ∧ (∀ bucket rows, result !! bucket = Some rows → rows ≠ [])
    ∧ (∀ raw table,
         raw ∈ answer → raw !! "source" = Some (SStr table) →
         ∃ rows, result !! SAtom table = Some rows ∧ loaded raw ∈ rows)
    ∧ (answer = [] → result = ∅).
Proof.
  intros answer Hid Htext Hanswer.
  destruct (search_result_total text Hid Htext Hanswer) as [result Hresult].
  pose proof (search_result_Return text result Hresult) as Hlookup.
  fold answer in Hlookup.
  exists result. split_and!; [done | done | | |].
  - intros bucket rows. rewrite Hlookup.
    destruct (group_of _ _ _); [discriminate|]. by intros [= <-].
  - intros raw table Hin Hsource.
    assert (Hgroup : loaded raw
              ∈ group_of row_source (SAtom table) (loaded <$> answer)).
    { apply list_elem_of_filter. split.
      - by apply row_source_loaded.
      - apply list_elem_of_fmap. by exists raw. }
    rewrite Hlookup. destruct (group_of _ _ _) as [|row rows] eqn:Hrows.
    + by inversion Hgroup.
    + by exists (row :: rows).
  - intros Hnone. apply map_eq. intros bucket.
    by rewrite Hlookup, Hnone, lookup_empty.
Qed.

(** C8, as the code has it. Every row that the search computes or
    returns has exactly the fields [id], [text] and [source]: [id] and
    [text] are as the statement selected them, [source] is the atom of
    the table the row comes from, the key of its bucket. No row has a
    field [tid] or a field [column]. *)
Theorem search_rows_shape text :
  let answer := execute_and_load search_sql (search_params text) in
  atom_exists "id" = true → atom_exists "text" = true →
  Forall (selected atom_exists) answer →
  (∃ result,
     search_result execute_and_load atom_exists text = Return result
     ∧ ∀ bucket rows row,
         result !! bucket = Some rows → row ∈ rows →
         row_shape bucket row
         ∧ ∃ raw table,
             raw ∈ answer ∧ bucket = SAtom table
             ∧ raw !! "source" = Some (SStr table)
             ∧ row !! "id" = raw !! "id"
             ∧ row !! "text" = raw !! "text")
  ∧ (∃ v,
       (full_text_search execute_and_load atom_exists text).2 = Return v
       ∧ map_Forall
           (λ bucket rows, Forall (row_shape (SAtom bucket)) rows) v).
Proof.
  intros answer Hid Htext Hanswer.
  destruct (search_result_total text Hid Htext Hanswer) as [result Hresult].
  pose proof (search_result_Return text result Hresult) as Hlookup.
  fold answer in Hlookup.
  split.
  - exists result. split; [done|].
    intros bucket rows row. rewrite Hlookup.
    destruct (group_of _ _ _) as [|row' rows'] eqn:Hgroup; [discriminate|].
    intros [= <-]. rewrite <- Hgroup.
    intros [Hkey (raw & -> & Hraw)%list_elem_of_fmap]%list_elem_of_filter.
    rewrite Forall_forall in Hanswer.
    destruct (Hanswer raw Hraw) as (Hdom & table & Hsource & _).
    rewrite (row_source_loaded raw table Hsource) in Hkey.
    injection Hkey as <-.
    assert (Hno : ∀ k, k ∉ dom raw → loaded raw !! k = None).
    { intros k Hk. apply not_elem_of_dom. by rewrite loaded_dom. }
    split.
    + unfold row_shape. rewrite loaded_dom, loaded_lookup, Hsource.
      split_and!; [done | done | |]; apply Hno;
        rewrite Hdom, !not_elem_of_union, !not_elem_of_singleton;
        by split_and!.
    + exists raw, table. rewrite !loaded_lookup.
      split_and!; try done.
      * by destruct (raw !! "id").
      * by destruct (raw !! "text").
  - exists literal_result. split.
    + by rewrite (full_text_search_of_result text result Hresult).
    + unfold literal_result, row_shape.
      apply map_Forall_insert_2; [|apply map_Forall_singleton];
        repeat constructor; by vm_compute.
Qed.

End Search_facts.

(** ** Reading quotes *)

Lemma filter_source_id_absent (l : list Source.t) S :
  S ∉ Source.id <$> l → filter (λ s, Source.id s = S) l = [].
Proof.
  induction l as [|s l IH]; [done|]. csimpl.
  intros [Hs Hl]%not_elem_of_cons.
  rewrite filter_cons, decide_False by done. by apply IH.
Qed.

(** A primary key selects one row. *)
Lemma filter_source_id_unique (l : list Source.t) S :
  NoDup (Source.id <$> l) → S ∈ Source.id <$> l →
  ∃ s, filter (λ s, Source.id s = S) l = [s].
Proof.
  induction l as [|s l IH]; csimpl.
  - intros _ Hin. by inversion Hin.
  - intros [Hs Hl]%NoDup_cons Hin. rewrite filter_cons.
    destruct (decide (Source.id s = S)) as [<-|Hne].
    + exists s. by rewrite filter_source_id_absent.
    + apply elem_of_cons in Hin as [->|Hin]; [done|]. by apply IH.
Qed.

Lemma joined_sources_one db S q :
  NoDup (source_ids db) → S ∈ source_ids db →
  (λ _, q) <$> joined_sources db S q
  = if decide (Quote.source_id (Quote.data q) = Some S) then [q] else [].
Proof.
  intros Hkey Hin. unfold joined_sources.
  destruct (filter_source_id_unique _ _ Hkey Hin) as [s Hs].
  destruct (decide (Quote.source_id (Quote.data q) = Some S)) as [Hq|Hq].
  - erewrite (list_filter_iff _ (λ s, Source.id s = S)).
    + by rewrite Hs.
    + intros s'. split; [by intros [_ ?]|]. intros <-. by split.
  - clear Hs. induction (sources db) as [|s' l IH]; [done|].
    rewrite filter_cons, decide_False; [done|].
    intros [Hs' <-]. by apply Hq.
Qed.

(** C7. [get_quotes_by] with no filter ([nil]) returns every quote in
    storage; with a filter whose [source] is the id of a source in
    storage, it returns exactly the quotes whose source id is that id,
    each once, in their order in storage. *)
Theorem get_quotes_by_contract :
  (∀ db, get_quotes_by None db = Return (quotes db))
  ∧ (∀ db inputs v S,
       inputs !! "source" = Some v → cast_id v = Return S →
       NoDup (source_ids db) → S ∈ source_ids db →
       get_quotes_by (Some inputs) db
       = Return (filter (λ q, Quote.source_id (Quote.data q) = Some S)
                   (quotes db))).
Proof.
  split; [done|].
  intros db inputs v S Hv Hcast Hkey Hin.
  unfold get_quotes_by, Map_get. rewrite Hv. simpl.
  assert (Hquery : Repo_all (Join_source From_Quote v) db
                   = Return (filter
                       (λ q, Quote.source_id (Quote.data q) = Some S)
                       (quotes db))).
  { simpl. rewrite Hcast. simpl. f_equal.
    induction (quotes db) as [|q l IH]; [done|].
    simpl. rewrite IH, (joined_sources_one db S q Hkey Hin), filter_cons.
    by destruct (decide _). }
  by destruct v as [[|z|s|a]|l].
Qed.

Lemma get_quotes_by_contract_witness :
  get_quotes_by (Some {[ "source" := VScalar (SStr "1") ]}) sample_library
  = Return (filter (λ q, Quote.source_id (Quote.data q) = Some 1)
              (quotes sample_library)).
Proof.
  apply (proj2 get_quotes_by_contract sample_library
           {[ "source" := VScalar (SStr "1") ]} (VScalar (SStr "1")) 1).
  - reflexivity.
  - reflexivity.
  - vm_compute. repeat constructor.
    + intros [?|Hin]%elem_of_cons; [done | by inversion Hin].
    + intros Hin. by inversion Hin.
  - vm_compute. left.
Defined.

(** ** The search on sample repositories *)

Lemma one_tag_selected text :
  Forall (selected every_atom) (one_tag search_sql (search_params text)).
Proof.
  constructor; [|constructor].
  split; [reflexivity|]. by exists "tags".
Qed.

(** Nothing matches, and the value returned has no bucket for the
    sources or the source types, and buckets of quotes and tags that are
    not empty. *)
Lemma search_without_match_buckets :
  ∃ v,
    (full_text_search no_match every_atom "zzz-no-such-substring-zzz").2
    = Return v
    ∧ v !! "sources" = None
    ∧ v !! "sourceTypes" = None
    ∧ v !! "source_types" = None
    ∧ v !! "quotes" ≠ Some []
    ∧ v !! "tags" ≠ Some []
    ∧ ¬ Forall (λ bucket, v !! bucket = Some []) stated_buckets.
Proof.
  exists literal_result. split_and!; try by vm_compute.
  intros Hall. by inversion Hall.
Qed.

Lemma search_result_buckets_witness :
  (∃ result,
     search_result one_tag every_atom "downdraft" = Return result
     ∧ (∀ bucket,
          result !! bucket
          = match group_of row_source bucket
                    (loaded <$> one_tag search_sql (search_params "downdraft"))
            with
            | [] => None
            | group => Some group
            end)
     ∧ (∀ bucket rows, result !! bucket = Some rows → rows ≠ [])
     ∧ (∀ raw table,
          raw ∈ one_tag search_sql (search_params "downdraft") →
          raw !! "source" = Some (SStr table) →
          ∃ rows, result !! SAtom table = Some rows ∧ loaded raw ∈ rows)
     ∧ (one_tag search_sql (search_params "downdraft") = [] → result = ∅))
  ∧ search_result no_match every_atom "zzz-no-such-substring-zzz"
    = Return ∅.
Proof.
  split.
  - apply (search_result_buckets one_tag every_atom "downdraft").
    + reflexivity.
    + reflexivity.
    + apply one_tag_selected.
  - destruct (search_result_buckets no_match every_atom
                "zzz-no-such-substring-zzz" eq_refl eq_refl)
      as (result & Hresult & _ & _ & _ & Hempty).
    + constructor.
    + rewrite Hresult. f_equal. by apply Hempty.
Defined.

(** The tag that the search returns for "downdraft" has no field [tid]
    and no field [column]. *)
Lemma search_row_without_tid_and_column :
  ∃ v rows row,
    (full_text_search one_tag every_atom "downdraft").2 = Return v
    ∧ v !! "tags" = Some rows
    ∧ row ∈ rows
    ∧ row !! "tid" = None
    ∧ row !! "column" = None
    ∧ ¬ Forall (λ field, is_Some (row !! field)) stated_row_fields.
Proof.
  exists literal_result. eexists. eexists. split_and!.
  - reflexivity.
  - reflexivity.
  - left.
  - reflexivity.
  - reflexivity.
  - intros Hall. inversion Hall as [|? ? [x Hx]]. discriminate Hx.
Qed.

Lemma search_rows_shape_witness :
  (∃ result,
     search_result one_tag every_atom "downdraft" = Return result
     ∧ ∀ bucket rows row,
         result !! bucket = Some rows → row ∈ rows →
         row_shape bucket row
         ∧ ∃ raw table,
             raw ∈ one_tag search_sql (search_params "downdraft")
             ∧ bucket = SAtom table
             ∧ raw !! "source" = Some (SStr table)
             ∧ row !! "id" = raw !! "id"
             ∧ row !! "text" = raw !! "text")
  ∧ (∃ v,
       (full_text_search one_tag every_atom "downdraft").2 = Return v
       ∧ map_Forall
           (λ bucket rows, Forall (row_shape (SAtom bucket)) rows) v).
Proof.
  apply (search_rows_shape one_tag every_atom "downdraft").
  - reflexivity.
  - reflexivity.
  - apply one_tag_selected.
Defined.

(** * More of Gas.QuoteApi *)

(** ** What a call of [create_with_tags] can and cannot do *)

Lemma with_seq_same db : with_seq db (quotes_id_seq db) = db.
Proof. by destruct db. Qed.

Lemma quote_tag_entries_declared now id l entries :
  Enum_map (quote_tag_entry now id) l = Return entries →
  Forall (λ tag, is_Some (integer_of_string (to_string tag))) l
  ∧ entries
    = (λ tag_id, QuoteTag.mk tag_id id now now)
        <$> omap (λ tag, integer_of_string (to_string tag)) l.
Proof.
  rewrite Enum_map_Return_Forall2.
  induction 1 as [|tag e l entries He _ [IHl IHe]]; [by split|].
  apply quote_tag_entry_Return in He as (z & Hz & ->).
  split.
  - constructor; [by rewrite Hz | done].
  - csimpl. rewrite Hz. csimpl. by rewrite IHe.
Qed.

Section QuoteApi_more.

Variable Quote_changeset : Quote.fields → gmap string value → Changeset.
Variable quotes_violation : Db → Quote.fields → option string.
Variable quote_tags_violation : Db → list QuoteTag.t → bool.

(** X1. Whatever its input and however it ends, a call only appends: the
    quote rows and the association rows it finds stay where they are,
    the sources and the tags are not written, and the sequence does not
    go back. *)
Theorem create_with_tags_appends now inputs db db' o :
  create_with_tags Quote_changeset quotes_violation quote_tags_violation
    now inputs db = (db', o) →
  quotes db `prefix_of` quotes db'
  ∧ quote_tags db `prefix_of` quote_tags db'
  ∧ sources db' = sources db
  ∧ tags db' = tags db
  ∧ quotes_id_seq db ≤ quotes_id_seq db'.
Proof.
  intros Hcall.
  pose proof (create_with_tags_seq _ _ _ _ _ _ _ _ Hcall) as Hseq.
  destruct o as [changes|name cs changes|e].
  - apply create_with_tags_Ok in Hcall
      as (l & q & entries & _ & _ & _ & _ & -> & -> & -> & -> & _).
    split_and!; try done; by eexists.
  - apply create_with_tags_failed in Hcall as (-> & -> & -> & ->); done.
  - apply create_with_tags_failed in Hcall as (-> & -> & -> & ->); done.
Qed.

Lemma create_with_tags_Error now inputs db db' name cs changes :
  create_with_tags Quote_changeset quotes_violation quote_tags_violation
    now inputs db = (db', Error name cs changes) →
  name = "quote" ∧ changes = ∅ ∧ valid cs = false.
Proof.
  destruct (inputs !! "tags") as [tags|] eqn:Htags.
  2:{ unfold create_with_tags. by rewrite Htags. }
  rewrite (create_with_tags_steps _ _ _ _ _ _ _ Htags).
  unfold Repo_insert.
  destruct (valid _) eqn:Hvalid.
  - destruct (quotes_violation db _) as [field|].
    + case_bool_decide; [|discriminate]. by intros [= <- <- <- <-].
    + simpl. destruct (Enum_map_value _ tags) as [entries|e];
        [|discriminate].
      unfold Repo_insert_all. destruct entries as [|e entries];
        [discriminate|].
      by destruct (quote_tags_violation _ _).
  - intros [= <- <- <- <-]. by rewrite Hvalid.
Qed.

(** X2. An error tuple of [create_with_tags] always comes from the quote
    step: its name is [:quote], its changeset is invalid, and no step
    had succeeded before it. The step [:quote_tags] never fails with an
    error tuple; when the bulk insert is refused it raises. *)
Theorem create_with_tags_error_is_quote now inputs db db' name cs changes :
  create_with_tags Quote_changeset quotes_violation quote_tags_violation
    now inputs db = (db', Error name cs changes) →
  name = "quote" ∧ changes = ∅ ∧ valid cs = false
  ∧ is_Some (inputs !! "tags").
Proof.
  intros Hcall.
  destruct (create_with_tags_Error _ _ _ _ _ _ _ Hcall) as (-> & -> & Hvalid).
  split_and!; [done | done | done |].
  destruct (inputs !! "tags") as [tags|] eqn:Htags; [by eexists|].
  unfold create_with_tags in Hcall. by rewrite Htags in Hcall.
Qed.

(** X3. A call commits only if [tags] is a list whose every element denotes
    an integer and the quote's changeset is valid. It then appends one
    quote, whose id is the value of the sequence, and after it one
    association row per element of [tags], in the order of [tags] and
    with repeated tags repeated, all stamped with the same [now]. *)
Theorem create_with_tags_committed now inputs db db' changes :
  create_with_tags Quote_changeset quotes_violation quote_tags_violation
    now inputs db = (db', Ok changes) →
  let cs := Quote_changeset Quote.empty (delete "tags" inputs) in
  let q := Quote.mk (quotes_id_seq db) (applied cs) in
  ∃ l,
    inputs !! "tags" = Some (VList l)
    ∧ Forall (λ tag, is_Some (integer_of_string (to_string tag))) l
    ∧ valid cs = true
    ∧ List.length (declared_tags inputs) = List.length l
    ∧ quotes db' = quotes db ++ [q]
    ∧ quote_tags db'
      = quote_tags db
        ++ ((λ tag_id, QuoteTag.mk tag_id (Quote.id q) now now)
              <$> declared_tags inputs)
    ∧ quotes_id_seq db' = quotes_id_seq db + 1.
Proof.
  intros Hcall cs q.
  assert (Hvalid : valid cs = true).
  { destruct (inputs !! "tags") as [tags|] eqn:Htags.
    2:{ unfold create_with_tags in Hcall. by rewrite Htags in Hcall. }
    rewrite (create_with_tags_steps _ _ _ _ _ _ _ Htags) in Hcall.
    unfold Repo_insert in Hcall. fold cs in Hcall.
    by destruct (valid cs). }
  apply create_with_tags_Ok in Hcall
    as (l & q' & entries & Htags & -> & Hentries & _ & Hqs & Hts & _ & _
        & Hseq).
  exists l.
  pose proof (Enum_map_Return_length _ _ _ Hentries) as Hlen.
  apply quote_tag_entries_declared in Hentries as [Hall ->].
  unfold declared_tags. rewrite Htags.
  rewrite length_fmap in Hlen.
  by split_and!.
Qed.

(** X4. In every state reached by calls of [create_with_tags], the ids of
    the quote rows are pairwise distinct and are all values the sequence
    has already handed out, so the next quote gets an id no row has. *)
Theorem reachable_ids_distinct db log :
  reachable Quote_changeset quotes_violation quote_tags_violation db log →
  NoDup (quote_ids db)
  ∧ Forall (λ q, Quote.id q < quotes_id_seq db) (quotes db)
  ∧ NoDup log.*1.
Proof.
  intros Hreach.
  destruct (reachable_fresh _ _ _ _ _ Hreach) as [Hlt Hnodup].
  split_and!; [done | done |].
  clear Hnodup.
  induction Hreach as [db Hq Ht|db log now inputs db' o Hreach IH Hcall].
  - constructor.
  - destruct (reachable_fresh _ _ _ _ _ Hreach) as [Hlt0 _].
    destruct (reachable_consistent _ _ _ _ _ Hreach) as (_ & Hlog & _).
    specialize (IH Hlt0).
    destruct o as [changes|name cs changes|e]; [|done|done].
    apply create_with_tags_Ok in Hcall
      as (l & q & entries & Htags & -> & _ & -> & _).
    unfold record_call, created.
    rewrite lookup_insert_ne, lookup_singleton_eq by done.
    csimpl. constructor; [|done].
    intros ([id declared] & Hid & Hin)%list_elem_of_fmap. simpl in Hid.
    destruct (Hlog _ _ Hin) as ((q & Hq & Hqid) & _).
    rewrite Forall_forall in Hlt0. specialize (Hlt0 q Hq). lia.
Qed.

(** X5. In every state reached by calls of [create_with_tags], no
    association row is an orphan: its quote row exists, its tag was
    declared by the call that created that quote, and its two timestamps
    are equal. *)
Theorem reachable_associations_owned db log :
  reachable Quote_changeset quotes_violation quote_tags_violation db log →
  ∀ e, e ∈ quote_tags db →
    quote_exists db (QuoteTag.quote_id e)
    ∧ (∃ declared, (QuoteTag.quote_id e, declared) ∈ log
                   ∧ QuoteTag.tag_id e ∈ declared)
    ∧ QuoteTag.inserted_at e = QuoteTag.updated_at e.
Proof.
  intros Hreach e He.
  destruct (reachable_consistent _ _ _ _ _ Hreach) as (_ & Hlog & Hrows).
  destruct (Hrows e He) as (declared & Hd & Htag).
  split_and!.
  - by apply (Hlog _ _ Hd).
  - by exists declared.
  - clear Hlog Hrows declared Hd Htag. revert e He.
    induction Hreach as [db Hq Ht|db log now inputs db' o _ IH Hcall].
    + rewrite Ht. intros e He. by inversion He.
    + destruct o as [changes|name cs changes|ex].
      2,3: apply create_with_tags_failed in Hcall as (_ & -> & _); done.
      apply create_with_tags_Ok in Hcall
        as (l & q & entries & _ & _ & Hentries & _ & _ & -> & _).
      apply quote_tag_entries_quote_id in Hentries.
      rewrite Forall_forall in Hentries.
      intros e [He|He]%elem_of_app; [by apply IH|].
      destruct (Hentries e He) as (_ & -> & ->). done.
Qed.

(** X6. With an empty list of tags, [create_with_tags] does to the storage
    what [create_] does with the same attributes, and ends the same way:
    the same quote, the same invalid changeset, or the same exception. *)
Theorem create_with_tags_without_tags_is_create now inputs db :
  inputs !! "tags" = Some (VList []) →
  let plain :=
    create_ Quote_changeset quotes_violation (delete "tags" inputs) db in
  let tagged :=
    create_with_tags Quote_changeset quotes_violation quote_tags_violation
      now inputs db in
  tagged.1 = plain.1
  ∧ match plain.2 with
    | Inserted q =>
        tagged.2 = Ok (<["quote_tags" := CInsertAll 0]>
                         {["quote" := CQuote q]})
    | Insert_error cs => tagged.2 = Error "quote" cs ∅
    | Insert_raise e => tagged.2 = Raised e
    end.
Proof.
  intros Htags. simpl. unfold create_.
  rewrite (create_with_tags_steps _ _ _ _ _ _ _ Htags).
  unfold Repo_insert.
  destruct (valid _).
  - destruct (quotes_violation db _) as [field|]; [|done].
    by case_bool_decide.
  - simpl. unfold rollback. by rewrite with_seq_same.
Qed.

End QuoteApi_more.

(** ** Tags, as integers and as text *)

Lemma quote_tag_entries_unparsable now id l tag :
  tag ∈ l → integer_of_string (to_string tag) = None →
  Enum_map (quote_tag_entry now id) l = Raise ArgumentError.
Proof.
  intros Hin Hparse.
  assert (Htag : quote_tag_entry now id tag = Raise ArgumentError).
  { unfold quote_tag_entry, String_to_integer. by rewrite Hparse. }
  destruct (Enum_map_elem_Raise _ _ _ _ Hin Htag) as [e Hmap].
  rewrite Hmap. apply Enum_map_Raise in Hmap as (x & _ & Hx).
  by apply quote_tag_entry_Raise in Hx as (_ & ->).
Qed.

(** X7. A tag given as an integer always becomes the association row of that
    integer, and so does the tag given as the decimal text of the
    integer; a [nil] among the tags raises. *)
Theorem quote_tag_entry_integer now id z :
  quote_tag_entry now id (SInt z) = Return (QuoteTag.mk z id now now)
  ∧ quote_tag_entry now id (SStr (pretty z))
    = quote_tag_entry now id (SInt z)
  ∧ quote_tag_entry now id SNil = Raise ArgumentError.
Proof.
  unfold quote_tag_entry, String_to_integer. simpl.
  by rewrite integer_of_string_pretty.
Qed.

(** ** Fetching what was created *)

Lemma filter_id_fresh (l : list Quote.t) id :
  Forall (λ q, Quote.id q < id) l → filter (λ q, Quote.id q = id) l = [].
Proof.
  induction 1 as [|q l Hq _ IH]; [done|].
  rewrite filter_cons, decide_False by lia. done.
Qed.

Lemma Repo_all_join_source db v S :
  cast_id v = Return S → NoDup (source_ids db) → S ∈ source_ids db →
  Repo_all (Join_source From_Quote v) db
  = Return (filter (λ q, Quote.source_id (Quote.data q) = Some S)
              (quotes db)).
Proof.
  intros Hcast Hkey Hin. simpl. rewrite Hcast. simpl. f_equal.
  induction (quotes db) as [|q l IH]; [done|].
  simpl. rewrite IH, (joined_sources_one db S q Hkey Hin), filter_cons.
  by destruct (decide _).
Qed.

Section QuoteApi_reads.

Variable Quote_changeset : Quote.fields → gmap string value → Changeset.
Variable quotes_violation : Db → Quote.fields → option string.
Variable quote_tags_violation : Db → list QuoteTag.t → bool.
Variable changeset_errors_to_string : Changeset → string.

(** X8. When every quote row has an id the sequence has handed out (as in
    every reachable state), a committed call creates a quote that [get!]
    did not find before the call and returns after it, whether the id is
    given as an integer or as its decimal text. *)
Theorem get_bang_created now inputs db db' changes :
  Forall (λ q, Quote.id q < quotes_id_seq db) (quotes db) →
  create_with_tags Quote_changeset quotes_violation quote_tags_violation
    now inputs db = (db', Ok changes) →
  ∃ q,
    changes !! "quote" = Some (CQuote q)
    ∧ get_bang (VScalar (SInt (Quote.id q))) db
      = Fetch_raise Ecto_NoResultsError
    ∧ get_bang (VScalar (SInt (Quote.id q))) db' = Fetched q
    ∧ get_bang (VScalar (SStr (pretty (Quote.id q)))) db' = Fetched q.
Proof.
  intros Hfresh Hcall.
  apply create_with_tags_Ok in Hcall
    as (l & q & entries & _ & Hq & _ & -> & Hqs & _).
  exists q. rewrite lookup_insert_ne, lookup_singleton_eq by done.
  assert (Hid : Quote.id q = quotes_id_seq db) by by rewrite Hq.
  unfold get_bang, Repo_get_bang. simpl.
  rewrite integer_of_string_pretty, Hqs, filter_app, Hid.
  rewrite (filter_id_fresh _ _ Hfresh). simpl.
  rewrite filter_cons, decide_True by done. done.
Qed.

(** X9. A quote that a call commits is found by [get_quotes_by] under its
    source: the quotes of that source after the call are those of before
    the call and the new quote, once each. No order is promised: the
    queries carry no [order_by]. *)
Theorem get_quotes_by_created now inputs db db' changes q S :
  create_with_tags Quote_changeset quotes_violation quote_tags_violation
    now inputs db = (db', Ok changes) →
  changes !! "quote" = Some (CQuote q) →
  Quote.source_id (Quote.data q) = Some S →
  NoDup (source_ids db) → S ∈ source_ids db →
  ∃ before after,
    get_quotes_by (Some {[ "source" := VScalar (SInt S) ]}) db
    = Return before
    ∧ get_quotes_by (Some {[ "source" := VScalar (SInt S) ]}) db'
      = Return after
    ∧ after ≡ₚ q :: before.
Proof.
  intros Hcall Hquote Hsource Hkey HS.
  apply create_with_tags_Ok in Hcall
    as (l & q' & entries & _ & _ & _ & -> & Hqs & _ & Hsources & _).
  rewrite lookup_insert_ne, lookup_singleton_eq in Hquote by done.
  injection Hquote as ->.
  exists (filter (λ q, Quote.source_id (Quote.data q) = Some S) (quotes db)),
    (filter (λ q, Quote.source_id (Quote.data q) = Some S) (quotes db')).
  assert (Hget : ∀ d,
            get_quotes_by (Some {[ "source" := VScalar (SInt S) ]}) d
            = Repo_all (Join_source From_Quote (VScalar (SInt S))) d).
  { intros d. unfold get_quotes_by, Map_get. by rewrite lookup_singleton_eq. }
  rewrite !Hget, !(Repo_all_join_source _ _ S); try done.
  - split_and!; [done | done |].
    rewrite Hqs, filter_app, filter_cons, decide_True by done.
    rewrite filter_nil. by rewrite <- Permutation_cons_append.
  - unfold source_ids. by rewrite Hsources.
  - unfold source_ids. by rewrite Hsources.
Qed.

(** X11. What the resolver answers. [{:ok, quote}] means the quote is the row
    the call appended. [{:error, message}] means the quote step failed:
    the message always names the step [quote], carries the errors of an
    invalid changeset, and nothing was written. When the resolver raises
    nothing was written either, and it is never for want of a clause in
    its [case]. *)
Theorem create_quote_answers now args db db' r :
  create_quote Quote_changeset quotes_violation quote_tags_violation
    changeset_errors_to_string now args db = (db', r) →
  match r with
  | Resolved q =>
      quotes db' = quotes db ++ [q] ∧ Quote.id q = quotes_id_seq db
  | Resolution_error message =>
      (∃ cs, valid cs = false
             ∧ message = "{name: quote, error: "
                         +:+ changeset_errors_to_string cs +:+ "}")
      ∧ quotes db' = quotes db ∧ quote_tags db' = quote_tags db
  | Resolver_raise e =>
      e ≠ CaseClauseError
      ∧ quotes db' = quotes db ∧ quote_tags db' = quote_tags db
  end.
Proof.
  unfold create_quote.
  destruct (args !! "quote") as [inputs|]; [|by intros [= <- <-]].
  destruct (create_with_tags _ _ _ now inputs db) as [db1 o] eqn:Hcall.
  destruct o as [changes|name cs changes|e].
  - apply create_with_tags_Ok in Hcall
      as (l & q & entries & _ & -> & _ & -> & Hqs & _).
    rewrite lookup_insert_ne, lookup_singleton_eq by done.
    by intros [= <- <-].
  - intros [= <- <-].
    destruct (create_with_tags_Error _ _ _ _ _ _ _ _ _ _ Hcall)
      as (-> & _ & Hvalid).
    apply create_with_tags_failed in Hcall as (? & ? & _); [|done].
    split_and!; [|done|done]. by exists cs.
  - intros [= <- <-].
    by apply create_with_tags_failed in Hcall as (? & ? & _).
Qed.

(** X12. The resolver rescues nothing. When the quote step succeeds and an
    element of [tags] does not denote an integer, [create_quote] itself
    raises [ArgumentError]: the caller gets no [{:error, message}]. *)
Theorem create_quote_raises now args inputs l tag db :
  let cs := Quote_changeset Quote.empty (delete "tags" inputs) in
  args !! "quote" = Some inputs →
  inputs !! "tags" = Some (VList l) →
  tag ∈ l →
  integer_of_string (to_string tag) = None →
  valid cs = true →
  quotes_violation db (applied cs) = None →
  create_quote Quote_changeset quotes_violation quote_tags_violation
    changeset_errors_to_string now args db
  = (with_seq db (quotes_id_seq db + 1),
     Resolver_raise (Api_exn ArgumentError)).
Proof.
  intros cs Hargs Htags Hin Hparse Hvalid Hquote.
  unfold create_quote. rewrite Hargs.
  rewrite (create_with_tags_steps _ _ _ _ _ _ _ Htags).
  unfold Repo_insert. fold cs. rewrite Hvalid, Hquote. simpl.
  by rewrite (quote_tag_entries_unparsable _ _ _ _ Hin Hparse).
Qed.

End QuoteApi_reads.

(** ** Filters of [get_quotes_by] *)

Lemma joined_sources_none db S q :
  S ∉ source_ids db → joined_sources db S q = [].
Proof.
  unfold joined_sources, source_ids.
  induction (sources db) as [|s srcs IH]; [done|]. csimpl.
  intros [Hs Hsrcs]%not_elem_of_cons.
  rewrite filter_cons, decide_False; [by apply IH|].
  intros [_ Heq]. by apply Hs.
Qed.

(** X10. A filter without a source, or with [source: nil], is no filter: the
    answer is that of [list]. With a source, every quote returned is a
    stored quote of that source, whatever the state of the storage, and
    none is returned when no source has the id. A source that cannot be
    cast to an id raises. *)
Theorem get_quotes_by_filters inputs db :
  (Map_get inputs "source" = VScalar SNil →
   get_quotes_by (Some inputs) db = list_ db)
  ∧ (∀ v S, inputs !! "source" = Some v → cast_id v = Return S →
       ∃ rows,
         get_quotes_by (Some inputs) db = Return rows
         ∧ Forall (λ q, q ∈ quotes db
                        ∧ Quote.source_id (Quote.data q) = Some S) rows
         ∧ (S ∉ source_ids db → rows = []))
  ∧ (∀ v e, inputs !! "source" = Some v → v ≠ VScalar SNil →
       cast_id v = Raise e →
       get_quotes_by (Some inputs) db = Raise Ecto_Query_CastError).
Proof.
  split_and!.
  - intros Hnil. unfold get_quotes_by. by rewrite Hnil.
  - intros v S Hv Hcast.
    assert (Hget : get_quotes_by (Some inputs) db
                   = Repo_all (Join_source From_Quote v) db).
    { unfold get_quotes_by, Map_get. rewrite Hv. simpl.
      by destruct v as [[|z|s|a]|l]. }
    rewrite Hget. simpl. rewrite Hcast. simpl. eexists. split; [done|].
    split.
    + apply Forall_forall. intros q Hq.
      apply list_elem_of_In, in_flat_map in Hq as (q' & Hq' & Hq).
      apply list_elem_of_In, list_elem_of_fmap in Hq as (s & -> & Hs).
      apply list_elem_of_filter in Hs as [[Hsource <-] _].
      split; [by apply list_elem_of_In | done].
    + intros HS. induction (quotes db) as [|q l IH]; [done|].
      simpl. by rewrite IH, app_nil_r, joined_sources_none.
  - intros v e Hv Hnil Hcast.
    unfold get_quotes_by, Map_get. rewrite Hv. simpl.
    destruct v as [[|z|s|a]|l]; simpl in *; try done.
    by destruct (integer_of_string s).
Qed.

(** ** More of the search *)

Lemma Enum_group_by_partition {K : Type} `{Countable K} {A : Type}
    (key_fun : A → result K) (l : list A) groups :
  Enum_group_by key_fun l = Return groups →
  List.concat (map_to_list groups).*2 ≡ₚ l.
Proof.
  unfold Enum_group_by.
  revert groups. induction l as [|x l IH]; intros groups; simpl.
  - intros [= <-]. by rewrite map_to_list_empty.
  - destruct (foldr _ _ l) as [groups'|]; [|discriminate]. simpl.
    destruct (key_fun x) as [key|]; [|discriminate]. simpl.
    intros [= <-]. specialize (IH groups' eq_refl).
    destruct (groups' !! key) as [rows|] eqn:Hkey; simpl.
    + rewrite <- (insert_delete_id groups' key rows Hkey) in IH.
      rewrite map_to_list_insert in IH by apply lookup_delete_eq.
      rewrite <- insert_delete_eq.
      rewrite map_to_list_insert by apply lookup_delete_eq.
      csimpl in *. by rewrite IH.
    + rewrite map_to_list_insert by done. csimpl. by rewrite IH.
Qed.

Section Search_more.

Variable execute_and_load : string → list string → list (gmap string scalar).
Variable atom_exists : string → bool.

Lemma load_pair_Raise kv e :
  load_pair atom_exists kv = Raise e → e = ArgumentError.
Proof.
  destruct kv as [k v]. unfold load_pair, String_to_existing_atom.
  destruct (String.eqb k "source").
  - destruct v as [|z|s|a]; simpl; try by intros [= <-].
    destruct (atom_exists s); simpl; [discriminate | by intros [= <-]].
  - destruct (atom_exists k); simpl; [discriminate | by intros [= <-]].
Qed.

Lemma load_row_Raise raw e :
  load_row atom_exists raw = Raise e → e = ArgumentError.
Proof.
  unfold load_row.
  destruct (Enum_map _ (map_to_list raw)) as [pairs|e'] eqn:Hpairs;
    simpl; [discriminate|].
  intros [= <-]. apply Enum_map_Raise in Hpairs as (kv & _ & Hkv).
  by apply load_pair_Raise in Hkv.
Qed.

(** X13. When a row of the answer comes from a table whose name is not yet an
    atom of the running system, the search raises [ArgumentError] after
    the statement was run: nothing is logged and nothing is returned,
    not even the other rows. *)
Theorem full_text_search_unknown_atom text raw table :
  raw ∈ execute_and_load search_sql (search_params text) →
  raw !! "source" = Some (SStr table) →
  atom_exists table = false →
  full_text_search execute_and_load atom_exists text
  = ([Query search_sql (search_params text)], Raise ArgumentError).
Proof.
  intros Hraw Hsource Htable.
  assert (Hpair : load_pair atom_exists ("source", SStr table)
                  = Raise ArgumentError).
  { unfold load_pair, String_to_existing_atom. simpl. by rewrite Htable. }
  assert (Hrow : load_row atom_exists raw = Raise ArgumentError).
  { destruct (load_row atom_exists raw) as [row|e] eqn:Hload.
    - unfold load_row in Hload.
      destruct (Enum_map_elem_Raise (load_pair atom_exists)
                  (map_to_list raw) ("source", SStr table) ArgumentError)
        as [e Hmap]; [by apply elem_of_map_to_list | done |].
      by rewrite Hmap in Hload.
    - by apply load_row_Raise in Hload as ->. }
  destruct (Enum_map_elem_Raise _ _ _ _ Hraw Hrow) as [e Hrows].
  pose proof Hrows as Hrows'.
  apply Enum_map_Raise in Hrows' as (raw' & _ & He).
  apply load_row_Raise in He as ->.
  unfold full_text_search, group_rows, Repo_execute_and_load. simpl.
  by rewrite Hrows.
Qed.

(** X14. Grouping neither loses nor repeats a row: the buckets of the
    aggregation, put end to end, are the loaded rows of the answer, up
    to their order. *)
Theorem search_result_partition text result :
  search_result execute_and_load atom_exists text = Return result →
  List.concat (map_to_list result).*2
  ≡ₚ loaded <$> execute_and_load search_sql (search_params text).
Proof.
  unfold search_result, group_rows, Repo_execute_and_load. simpl.
  destruct (Enum_map _ _) as [rows|] eqn:Hrows; simpl; [|discriminate].
  apply (Enum_map_Return_fmap _ loaded) in Hrows as ->;
    [|apply load_row_Return].
  apply Enum_group_by_partition.
Qed.

End Search_more.

(** * The form of a new quote *)

Lemma truthy_number_Some n z :
  truthy_number n = Some z → n = Some z ∧ z ≠ 0.
Proof. destruct n as [[]|]; simpl; by intros [= <-]. Qed.

Lemma truthy_string_Some s t :
  truthy_string s = Some t → s = Some t ∧ t ≠ "".
Proof. destruct s as [[]|]; simpl; by intros [= <-]. Qed.

Section NewQuote_facts.

Variable moment_isValid : Z → Z → Z → bool.
Variable moment_format : Z → Z → Z → string.

#[local] Abbreviation validator1 := (validator moment_isValid moment_format).
#[local] Abbreviation validate1 := (validate moment_isValid moment_format).
#[local] Abbreviation recorded1 := (recorded moment_isValid moment_format).

(** An accepted value is recorded. *)
Lemma validator_records v o o' :
  validator1 v o = ("", o') → recorded1 v o'.
Proof.
  destruct v as [tags|source|quote|page|vi|date|extras]; simpl.
  - unfold validateTags. destruct tags as [[|t l]|]; try discriminate.
    intros [= <-]. by exists (t :: l).
  - unfold validateSource. destruct source as [s|]; [|discriminate].
    intros [= <-]. by exists s.
  - unfold validateQuote.
    destruct (truthy_string quote) as [s|] eqn:Hq; [|discriminate].
    intros [= <-]. apply truthy_string_Some in Hq as [-> ?]. by exists s.
  - unfold validatePage. destruct page; by intros [= <-].
  - unfold validateVolumeIssue. destruct vi; by intros [= <-].
  - unfold validateDate. destruct date as [date|]; [|by intros [= <-]].
    case_bool_decide as Hsize; [discriminate|].
    destruct (truthy_number (date !! "year" ≫= id)) as [year|] eqn:Hy;
      [|discriminate].
    destruct (truthy_number (date !! "month" ≫= id)) as [month|] eqn:Hm;
      [|discriminate].
    destruct (truthy_number (date !! "day" ≫= id)) as [day|] eqn:Hd;
      [|discriminate].
    destruct (moment_isValid year (month - 1) day) eqn:Hvalid;
      [|discriminate].
    intros [= <-].
    apply truthy_number_Some in Hy as [Hy ?], Hm as [Hm ?], Hd as [Hd ?].
    exists year, month, day.
    destruct (date !! "year") as [[?|]|]; try discriminate.
    destruct (date !! "month") as [[?|]|]; try discriminate.
    destruct (date !! "day") as [[?|]|]; try discriminate.
    simpl in *. simplify_eq.
    split_and!; try done; by destruct (decide (size date = 3%nat)).
  - unfold validateExtras.
    destruct (truthy_string extras) as [s|] eqn:He; by intros [= <-].
Qed.

(** The validator of a key leaves what another key recorded. *)
Lemma validator_keeps v w o error o' :
  form_key w ≠ form_key v →
  validator1 w o = (error, o') → recorded1 v o → recorded1 v o'.
Proof.
  intros Hkey Hw Hv.
  assert (Hfields :
    (form_key w ≠ "quote" →
       CreateQuoteInput.text o' = CreateQuoteInput.text o)
    ∧ (form_key w ≠ "source" →
       CreateQuoteInput.sourceId o' = CreateQuoteInput.sourceId o)
    ∧ (form_key w ≠ "tags" →
       CreateQuoteInput.tags o' = CreateQuoteInput.tags o)
    ∧ (form_key w ≠ "date" →
       CreateQuoteInput.date o' = CreateQuoteInput.date o)
    ∧ (form_key w ≠ "page" →
       CreateQuoteInput.pageStart o' = CreateQuoteInput.pageStart o
       ∧ CreateQuoteInput.pageEnd o' = CreateQuoteInput.pageEnd o)
    ∧ (form_key w ≠ "volumeIssue" →
       CreateQuoteInput.volume o' = CreateQuoteInput.volume o
       ∧ CreateQuoteInput.issue o' = CreateQuoteInput.issue o)
    ∧ (form_key w ≠ "extras" →
       CreateQuoteInput.extras o' = CreateQuoteInput.extras o)).
  { destruct w as [tags|source|quote|page|vi|date|extras]; simpl in Hw.
    - unfold validateTags in Hw.
      destruct tags as [[|t l]|]; injection Hw as <- <-; by split_and!.
    - unfold validateSource in Hw.
      destruct source; injection Hw as <- <-; by split_and!.
    - unfold validateQuote in Hw.
      destruct (truthy_string quote); injection Hw as <- <-; by split_and!.
    - unfold validatePage in Hw.
      destruct page; injection Hw as <- <-; by split_and!.
    - unfold validateVolumeIssue in Hw.
      destruct vi; injection Hw as <- <-; by split_and!.
    - unfold validateDate in Hw.
      destruct date as [date|]; [|injection Hw as <- <-; by split_and!].
      case_bool_decide; [injection Hw as <- <-; by split_and!|].
      destruct (truthy_number (date !! "year" ≫= id));
        [|injection Hw as <- <-; by split_and!].
      destruct (truthy_number (date !! "month" ≫= id));
        [|injection Hw as <- <-; by split_and!].
      destruct (truthy_number (date !! "day" ≫= id));
        injection Hw as <- <-; by split_and!.
    - unfold validateExtras in Hw.
      destruct (truthy_string extras); injection Hw as <- <-; by split_and!. }
  destruct Hfields as (Htext & Hsource & Htags & Hdate & Hpage & Hvi & Hex).
  destruct v as [tags|source|quote|page|vi|date|extras]; simpl in *.
  - by rewrite Htags.
  - by rewrite Hsource.
  - by rewrite Htext.
  - destruct page; [|done]. by destruct (Hpage Hkey) as [-> ->].
  - destruct vi; [|done]. by destruct (Hvi Hkey) as [-> ->].
  - destruct date; by rewrite Hdate.
  - destruct (truthy_string extras); [|done]. by rewrite Hex.
Qed.

Lemma validate_keeps v values o o' errors :
  form_key v ∉ form_key <$> values →
  validate1 values o = (errors, o') → recorded1 v o → recorded1 v o'.
Proof.
  revert o. induction values as [|w values IH]; intros o; simpl.
  - by intros _ [= _ <-].
  - intros [Hw Hrest]%not_elem_of_cons.
    destruct (validator1 w o) as [error o1] eqn:Hvalidator.
    intros Hvalidate Hv.
    pose proof (validator_keeps v w o error o1 (not_eq_sym Hw)
                  Hvalidator Hv) as Hv1.
    destruct (String.eqb error "").
    + by apply (IH o1).
    + by injection Hvalidate as _ <-.
Qed.

(** X15. [validate] reports at most one error, that of the first key in the
    order of the form that its validator refuses. The keys before it
    were accepted; the keys after it are not validated at all, whatever
    they hold, and leave no trace in [formOutputs]. *)
Theorem validate_first_error values o errors o' :
  validate moment_isValid moment_format values o = (errors, o') →
  (errors = []
   ∧ ∀ rest, validate moment_isValid moment_format (values ++ rest) o
             = validate moment_isValid moment_format rest o')
  ∨ ∃ accepted v rest error o1,
      values = accepted ++ v :: rest
      ∧ validate moment_isValid moment_format accepted o = ([], o1)
      ∧ validator moment_isValid moment_format v o1 = (error, o')
      ∧ error ≠ ""
      ∧ errors = [(form_key v, error)].
Proof.
  revert o. induction values as [|v values IH]; intros o; simpl.
  - intros [= <- <-]. by left.
  - destruct (validator1 v o) as [error o1] eqn:Hv.
    destruct (String.eqb_spec error "") as [->|Herror].
    + intros Hrest. destruct (IH o1 Hrest)
        as [[-> Hmore]|(accepted & w & rest & e & o2 & -> & Hacc & Hw & He
                        & ->)].
      * left. split; [done|]. intros rest. apply Hmore.
      * right. exists (v :: accepted), w, rest, e, o2.
        split_and!; try done.
        change (validate1 (v :: accepted) o)
          with (let '(error, o1) := validator1 v o in
                if String.eqb error "" then validate1 accepted o1
                else ([(form_key v, error)], o1)).
        by rewrite Hv, Hacc.
    + intros [= <- <-]. right. by exists [], v, values, error, o.
Qed.

(** X16. When [validate] reports no error, [formOutputs] holds every value of
    the form: the text is the quote, which is not empty; the source id
    is the id of the source; the tags are the ids of the selected tags,
    of which there is at least one; the date is the format of a moment
    that is valid; page, volume and issue are as entered. *)
Theorem validate_accepted values o o' :
  NoDup (form_key <$> values) →
  validate moment_isValid moment_format values o = ([], o') →
  Forall (λ v, recorded moment_isValid moment_format v o') values.
Proof.
  revert o. induction values as [|v values IH]; intros o; [constructor|].
  csimpl. intros [Hv Hrest]%NoDup_cons.
  destruct (validator1 v o) as [error o1] eqn:Hvalidator.
  destruct (String.eqb_spec error "") as [->|Herror]; [|discriminate].
  intros Hvalidate. constructor.
  - apply (validate_keeps v values o1 o' [] Hv Hvalidate).
    by apply (validator_records v o).
  - by apply (IH o1).
Qed.

(** X17. What the form no longer holds is not taken back: when the extras are
    erased, or the page or the volume and issue are unset, [validate]
    leaves in [formOutputs] the values recorded before. *)
Theorem validate_keeps_unset values o errors o' :
  validate moment_isValid moment_format values o = (errors, o') →
  ((∀ s, Extras_value (Some s) ∈ values → s = "") →
   CreateQuoteInput.extras o' = CreateQuoteInput.extras o)
  ∧ ((∀ page, Page_value (Some page) ∉ values) →
     CreateQuoteInput.pageStart o' = CreateQuoteInput.pageStart o
     ∧ CreateQuoteInput.pageEnd o' = CreateQuoteInput.pageEnd o)
  ∧ ((∀ vi, VolumeIssue_value (Some vi) ∉ values) →
     CreateQuoteInput.volume o' = CreateQuoteInput.volume o
     ∧ CreateQuoteInput.issue o' = CreateQuoteInput.issue o).
Proof.
  revert o. induction values as [|v values IH]; intros o; simpl.
  - by intros [= _ <-].
  - destruct (validator1 v o) as [error o1] eqn:Hv.
    intros Hvalidate.
    assert (Hrest : validate1 values o1 = (errors, o') ∨ o' = o1).
    { destruct (String.eqb error ""); [by left|].
      right. by injection Hvalidate as _ <-. }
    assert (Hstep :
      ((∀ s, v = Extras_value (Some s) → s = "") →
       CreateQuoteInput.extras o1 = CreateQuoteInput.extras o)
      ∧ ((∀ page, v ≠ Page_value (Some page)) →
         CreateQuoteInput.pageStart o1 = CreateQuoteInput.pageStart o
         ∧ CreateQuoteInput.pageEnd o1 = CreateQuoteInput.pageEnd o)
      ∧ ((∀ vi, v ≠ VolumeIssue_value (Some vi)) →
         CreateQuoteInput.volume o1 = CreateQuoteInput.volume o
         ∧ CreateQuoteInput.issue o1 = CreateQuoteInput.issue o)).
    { clear Hvalidate Hrest IH.
      destruct v as [tags|source|quote|page|vi|date|extras]; simpl in Hv.
      - unfold validateTags in Hv.
        destruct tags as [[|t l]|]; injection Hv as <- <-; by split_and!.
      - unfold validateSource in Hv.
        destruct source; injection Hv as <- <-; by split_and!.
      - unfold validateQuote in Hv.
        destruct (truthy_string quote); injection Hv as <- <-; by split_and!.
      - unfold validatePage in Hv.
        destruct page as [page|]; injection Hv as <- <-;
          split_and!; try done.
        intros Hno. by destruct (Hno page).
      - unfold validateVolumeIssue in Hv.
        destruct vi as [vi|]; injection Hv as <- <-; split_and!; try done.
        intros Hno. by destruct (Hno vi).
      - unfold validateDate in Hv.
        destruct date as [date|]; [|injection Hv as <- <-; by split_and!].
        case_bool_decide; [injection Hv as <- <-; by split_and!|].
        destruct (truthy_number (date !! "year" ≫= id));
          [|injection Hv as <- <-; by split_and!].
        destruct (truthy_number (date !! "month" ≫= id));
          [|injection Hv as <- <-; by split_and!].
        destruct (truthy_number (date !! "day" ≫= id));
          injection Hv as <- <-; by split_and!.
      - unfold validateExtras in Hv.
        destruct extras as [[|c s]|]; simpl in Hv;
          injection Hv as <- <-; split_and!; try done.
        intros Hno. by specialize (Hno _ eq_refl). }
    destruct Hstep as (Hex & Hpage & Hvi).
    assert (Hend :
      ((∀ s, Extras_value (Some s) ∈ values → s = "") →
       CreateQuoteInput.extras o' = CreateQuoteInput.extras o1)
      ∧ ((∀ page, Page_value (Some page) ∉ values) →
         CreateQuoteInput.pageStart o' = CreateQuoteInput.pageStart o1
         ∧ CreateQuoteInput.pageEnd o' = CreateQuoteInput.pageEnd o1)
      ∧ ((∀ vi, VolumeIssue_value (Some vi) ∉ values) →
         CreateQuoteInput.volume o' = CreateQuoteInput.volume o1
         ∧ CreateQuoteInput.issue o' = CreateQuoteInput.issue o1)).
    { destruct Hrest as [Hrest| ->]; [by apply (IH o1) | done]. }
    destruct Hend as (Hex' & Hpage' & Hvi').
    split_and!.
    + intros Hno. rewrite Hex', Hex; [done| |].
      * intros s ->. apply Hno. by left.
      * intros s Hs. apply Hno. by right.
    + intros Hno.
      destruct Hpage' as [Hstart' Hend'].
      { intros page Hp. apply (Hno page). by right. }
      destruct Hpage as [Hstart Hend].
      { intros page ->. apply (Hno page). by left. }
      by rewrite Hstart', Hend', Hstart, Hend.
    + intros Hno.
      destruct Hvi' as [Hvolume' Hissue'].
      { intros vi Hp. apply (Hno vi). by right. }
      destruct Hvi as [Hvolume Hissue].
      { intros vi ->. apply (Hno vi). by left. }
      by rewrite Hvolume', Hissue', Hvolume, Hissue.
Qed.

(** X18. A date that is refused is never written to [formOutputs]. When a
    part of it is missing or zero, [formOutputs] is left as it was, date
    included; when the three parts are there and the moment they make is
    not valid, the date of [formOutputs] is unset. *)
Theorem validateDate_refused date o error o' :
  validateDate moment_isValid moment_format date o = (error, o') →
  error ≠ "" →
  error = "Enter a valid date"
  ∧ (o' = o
     ∨ ∃ d year month day,
         date = Some d
         ∧ d !! "year" = Some (Some year)
         ∧ d !! "month" = Some (Some month)
         ∧ d !! "day" = Some (Some day)
         ∧ moment_isValid year (month - 1) day = false
         ∧ o' = CreateQuoteInput.set_date None o).
Proof.
  unfold validateDate. destruct date as [d|]; [|by intros [= <- <-]].
  case_bool_decide; [intros [= <- <-]; by auto|].
  destruct (truthy_number (d !! "year" ≫= id)) as [year|] eqn:Hy;
    [|intros [= <- <-]; by auto].
  destruct (truthy_number (d !! "month" ≫= id)) as [month|] eqn:Hm;
    [|intros [= <- <-]; by auto].
  destruct (truthy_number (d !! "day" ≫= id)) as [day|] eqn:Hd;
    [|intros [= <- <-]; by auto].
  destruct (moment_isValid year (month - 1) day) eqn:Hvalid;
    intros [= <- <-] Herror; [done|].
  split; [done|]. right.
  apply truthy_number_Some in Hy as [Hy _], Hm as [Hm _], Hd as [Hd _].
  exists d, year, month, day.
  destruct (d !! "year") as [[?|]|]; try discriminate.
  destruct (d !! "month") as [[?|]|]; try discriminate.
  destruct (d !! "day") as [[?|]|]; try discriminate.
  simpl in *. simplify_eq. by split_and!.
Qed.

End NewQuote_facts.

(** * The properties above on the sample storage, repositories and forms *)

Lemma create_with_tags_appends_witness :
  let after := Gas_create_with_tags 0 sample_inputs sample_db in
  quotes sample_db `prefix_of` quotes after.1
  ∧ quote_tags sample_db `prefix_of` quote_tags after.1
  ∧ sources after.1 = sources sample_db
  ∧ tags after.1 = tags sample_db
  ∧ quotes_id_seq sample_db ≤ quotes_id_seq after.1.
Proof.
  intros after.
  apply (create_with_tags_appends Gas_Quote_changeset quotes_source_id_fkey
           quote_tags_fkeys 0 sample_inputs sample_db after.1 after.2).
  apply surjective_pairing.
Defined.

Lemma create_with_tags_error_is_quote_witness :
  ∃ db' name cs changes,
    Gas_create_with_tags 0 blank_inputs sample_db
    = (db', Error name cs changes)
    ∧ name = "quote" ∧ changes = ∅ ∧ valid cs = false
    ∧ is_Some (blank_inputs !! "tags").
Proof.
  eexists _, _, _, _. split; [reflexivity|].
  eapply (create_with_tags_error_is_quote Gas_Quote_changeset
            quotes_source_id_fkey quote_tags_fkeys 0 blank_inputs sample_db).
  reflexivity.
Defined.

Lemma create_with_tags_committed_witness :
  ∃ db' changes,
    Gas_create_with_tags 5 sample_inputs sample_db = (db', Ok changes)
    ∧ ∃ l,
        sample_inputs !! "tags" = Some (VList l)
        ∧ Forall (λ tag, is_Some (integer_of_string (to_string tag))) l
        ∧ valid (Gas_Quote_changeset Quote.empty
                   (delete "tags" sample_inputs)) = true
        ∧ List.length (declared_tags sample_inputs) = List.length l
        ∧ quotes db'
          = quotes sample_db
            ++ [Quote.mk 1 (applied (Gas_Quote_changeset Quote.empty
                                       (delete "tags" sample_inputs)))]
        ∧ quote_tags db'
          = quote_tags sample_db
            ++ ((λ tag_id, QuoteTag.mk tag_id 1 5 5)
                  <$> declared_tags sample_inputs)
        ∧ quotes_id_seq db' = quotes_id_seq sample_db + 1.
Proof.
  eexists _, _. split; [reflexivity|].
  eapply (create_with_tags_committed Gas_Quote_changeset
            quotes_source_id_fkey quote_tags_fkeys 5 sample_inputs sample_db).
  reflexivity.
Defined.

Lemma sample_reachable :
  reachable Gas_Quote_changeset quotes_source_id_fkey quote_tags_fkeys
    (Gas_create_with_tags 5 sample_inputs sample_db).1
    (record_call sample_inputs
       (Gas_create_with_tags 5 sample_inputs sample_db).2 []).
Proof.
  apply (reachable_call _ _ _ sample_db [] 5 sample_inputs).
  - apply reachable_init; reflexivity.
  - apply surjective_pairing.
Defined.

Lemma reachable_ids_distinct_witness :
  let db := (Gas_create_with_tags 5 sample_inputs sample_db).1 in
  let log :=
    record_call sample_inputs
      (Gas_create_with_tags 5 sample_inputs sample_db).2 [] in
  NoDup (quote_ids db)
  ∧ Forall (λ q, Quote.id q < quotes_id_seq db) (quotes db)
  ∧ NoDup log.*1.
Proof.
  apply (reachable_ids_distinct Gas_Quote_changeset quotes_source_id_fkey
           quote_tags_fkeys).
  apply sample_reachable.
Defined.

Lemma reachable_associations_owned_witness :
  let db := (Gas_create_with_tags 5 sample_inputs sample_db).1 in
  let log :=
    record_call sample_inputs
      (Gas_create_with_tags 5 sample_inputs sample_db).2 [] in
  let e := QuoteTag.mk 2 1 5 5 in
  quote_exists db (QuoteTag.quote_id e)
  ∧ (∃ declared, (QuoteTag.quote_id e, declared) ∈ log
                 ∧ QuoteTag.tag_id e ∈ declared)
  ∧ QuoteTag.inserted_at e = QuoteTag.updated_at e.
Proof.
  intros db log e.
  apply (reachable_associations_owned Gas_Quote_changeset
           quotes_source_id_fkey quote_tags_fkeys db log).
  - apply sample_reachable.
  - vm_compute. right. left.
Defined.

Lemma create_with_tags_without_tags_is_create_witness :
  let plain :=
    create_ Gas_Quote_changeset quotes_source_id_fkey
      (delete "tags" untagged_inputs) sample_db in
  let tagged := Gas_create_with_tags 0 untagged_inputs sample_db in
  tagged.1 = plain.1
  ∧ match plain.2 with
    | Inserted q =>
        tagged.2 = Ok (<["quote_tags" := CInsertAll 0]>
                         {["quote" := CQuote q]})
    | Insert_error cs => tagged.2 = Error "quote" cs ∅
    | Insert_raise e => tagged.2 = Raised e
    end.
Proof.
  apply (create_with_tags_without_tags_is_create Gas_Quote_changeset
           quotes_source_id_fkey quote_tags_fkeys 0 untagged_inputs
           sample_db).
  reflexivity.
Defined.

Lemma get_bang_created_witness :
  ∃ db' changes q,
    Gas_create_with_tags 5 sample_inputs sample_db = (db', Ok changes)
    ∧ changes !! "quote" = Some (CQuote q)
    ∧ get_bang (VScalar (SInt (Quote.id q))) sample_db
      = Fetch_raise Ecto_NoResultsError
    ∧ get_bang (VScalar (SInt (Quote.id q))) db' = Fetched q
    ∧ get_bang (VScalar (SStr (pretty (Quote.id q)))) db' = Fetched q.
Proof.
  destruct (get_bang_created Gas_Quote_changeset quotes_source_id_fkey
              quote_tags_fkeys 5 sample_inputs sample_db
              (Gas_create_with_tags 5 sample_inputs sample_db).1
              (<["quote_tags" := CInsertAll 3]>
                 {["quote" :=
                     CQuote (Quote.mk 1
                               (applied (Gas_Quote_changeset Quote.empty
                                  (delete "tags" sample_inputs))))]}))
    as (q & Hq & Hget).
  - constructor.
  - vm_compute. reflexivity.
  - eexists _, _, q. split; [|split; [exact Hq | exact Hget]].
    vm_compute. reflexivity.
Defined.

Lemma get_quotes_by_created_witness :
  ∃ db' changes q before after,
    Gas_create_with_tags 5 sample_inputs sample_db = (db', Ok changes)
    ∧ changes !! "quote" = Some (CQuote q)
    ∧ get_quotes_by (Some {[ "source" := VScalar (SInt 1) ]}) sample_db
      = Return before
    ∧ get_quotes_by (Some {[ "source" := VScalar (SInt 1) ]}) db'
      = Return after
    ∧ after ≡ₚ q :: before.
Proof.
  pose (q := Quote.mk 1 (applied (Gas_Quote_changeset Quote.empty
                                    (delete "tags" sample_inputs)))).
  pose (changes := <["quote_tags" := CInsertAll 3]>
                     ({["quote" := CQuote q]} : gmap string change)).
  destruct (get_quotes_by_created Gas_Quote_changeset quotes_source_id_fkey
              quote_tags_fkeys 5 sample_inputs sample_db
              (Gas_create_with_tags 5 sample_inputs sample_db).1
              changes q 1) as (before & after & Hbefore & Hafter & Hperm).
  - vm_compute. reflexivity.
  - reflexivity.
  - reflexivity.
  - vm_compute. repeat constructor. intros Hin. by inversion Hin.
  - vm_compute. left.
  - exists (Gas_create_with_tags 5 sample_inputs sample_db).1, changes, q,
      before, after.
    split_and!; [|reflexivity|exact Hbefore|exact Hafter|exact Hperm].
    vm_compute. reflexivity.
Defined.

Lemma create_quote_answers_witness :
  let answer :=
    create_quote Gas_Quote_changeset quotes_source_id_fkey quote_tags_fkeys
      sample_errors_to_string 0 {[ "quote" := blank_inputs ]} sample_db in
  match answer.2 with
  | Resolved q =>
      quotes answer.1 = quotes sample_db ++ [q]
      ∧ Quote.id q = quotes_id_seq sample_db
  | Resolution_error message =>
      (∃ cs, valid cs = false
             ∧ message = "{name: quote, error: "
                         +:+ sample_errors_to_string cs +:+ "}")
      ∧ quotes answer.1 = quotes sample_db
      ∧ quote_tags answer.1 = quote_tags sample_db
  | Resolver_raise e =>
      e ≠ CaseClauseError
      ∧ quotes answer.1 = quotes sample_db
      ∧ quote_tags answer.1 = quote_tags sample_db
  end.
Proof.
  intros answer.
  apply (create_quote_answers Gas_Quote_changeset quotes_source_id_fkey
           quote_tags_fkeys sample_errors_to_string 0
           {[ "quote" := blank_inputs ]} sample_db answer.1 answer.2).
  apply surjective_pairing.
Defined.

Lemma create_quote_raises_witness :
  create_quote Gas_Quote_changeset quotes_source_id_fkey quote_tags_fkeys
    sample_errors_to_string 0 {[ "quote" := unparsable_inputs ]} sample_db
  = (with_seq sample_db (quotes_id_seq sample_db + 1),
     Resolver_raise (Api_exn ArgumentError)).
Proof.
  apply (create_quote_raises Gas_Quote_changeset quotes_source_id_fkey
           quote_tags_fkeys sample_errors_to_string 0
           {[ "quote" := unparsable_inputs ]} unparsable_inputs
           [SStr "1"; SStr "two"] (SStr "two") sample_db).
  - reflexivity.
  - reflexivity.
  - right. left.
  - reflexivity.
  - vm_compute. reflexivity.
  - vm_compute. reflexivity.
Defined.

Lemma get_quotes_by_filters_witness :
  get_quotes_by (Some ∅) sample_library = list_ sample_library
  ∧ ∃ rows,
      get_quotes_by (Some {[ "source" := VScalar (SStr "7") ]}) sample_library
      = Return rows
      ∧ Forall (λ q, q ∈ quotes sample_library
                     ∧ Quote.source_id (Quote.data q) = Some 7) rows
      ∧ (7 ∉ source_ids sample_library → rows = []).
Proof.
  split.
  - apply (proj1 (get_quotes_by_filters ∅ sample_library)). reflexivity.
  - apply (proj1 (proj2 (get_quotes_by_filters
                           {[ "source" := VScalar (SStr "7") ]}
                           sample_library)) (VScalar (SStr "7")) 7).
    + reflexivity.
    + reflexivity.
Defined.

Lemma full_text_search_unknown_atom_witness :
  full_text_search one_source_type atoms_of_module "journal"
  = ([Query search_sql (search_params "journal")], Raise ArgumentError).
Proof.
  apply (full_text_search_unknown_atom one_source_type atoms_of_module
           "journal"
           {[ "id" := SInt 2; "source" := SStr "source_types";
              "text" := SStr "Journal" ]} "source_types").
  - left.
  - reflexivity.
  - vm_compute. reflexivity.
Defined.

Lemma search_result_partition_witness :
  ∃ result,
    search_result one_tag every_atom "downdraft" = Return result
    ∧ List.concat (map_to_list result).*2
      ≡ₚ loaded <$> one_tag search_sql (search_params "downdraft").
Proof.
  destruct (search_result one_tag every_atom "downdraft")
    as [result|e] eqn:Hresult.
  - exists result. split; [done|].
    by apply (search_result_partition one_tag every_atom "downdraft").
  - vm_compute in Hresult. discriminate Hresult.
Defined.

Lemma validate_first_error_witness :
  let answer :=
    validate sample_isValid sample_format unfinished_values sample_outputs in
  (answer.1 = []
   ∧ ∀ rest, validate sample_isValid sample_format
               (unfinished_values ++ rest) sample_outputs
             = validate sample_isValid sample_format rest answer.2)
  ∨ ∃ accepted v rest error o1,
      unfinished_values = accepted ++ v :: rest
      ∧ validate sample_isValid sample_format accepted sample_outputs
        = ([], o1)
      ∧ validator sample_isValid sample_format v o1 = (error, answer.2)
      ∧ error ≠ ""
      ∧ answer.1 = [(form_key v, error)].
Proof.
  intros answer.
  apply (validate_first_error sample_isValid sample_format
           unfinished_values sample_outputs answer.1 answer.2).
  apply surjective_pairing.
Defined.

Lemma validate_accepted_witness :
  Forall
    (λ v, recorded sample_isValid sample_format v
            (validate sample_isValid sample_format sample_values
               sample_outputs).2)
    sample_values.
Proof.
  apply (validate_accepted sample_isValid sample_format sample_values
           sample_outputs).
  - apply (bool_decide_unpack _). vm_compute. exact I.
  - vm_compute. reflexivity.
Defined.

Lemma validate_keeps_unset_witness :
  let answer :=
    validate sample_isValid sample_format sample_values earlier_outputs in
  ((∀ s, Extras_value (Some s) ∈ sample_values → s = "") →
   CreateQuoteInput.extras answer.2 = CreateQuoteInput.extras earlier_outputs)
  ∧ ((∀ page, Page_value (Some page) ∉ sample_values) →
     CreateQuoteInput.pageStart answer.2
     = CreateQuoteInput.pageStart earlier_outputs
     ∧ CreateQuoteInput.pageEnd answer.2
       = CreateQuoteInput.pageEnd earlier_outputs)
  ∧ ((∀ vi, VolumeIssue_value (Some vi) ∉ sample_values) →
     CreateQuoteInput.volume answer.2
     = CreateQuoteInput.volume earlier_outputs
     ∧ CreateQuoteInput.issue answer.2
       = CreateQuoteInput.issue earlier_outputs).
Proof.
  intros answer.
  apply (validate_keeps_unset sample_isValid sample_format sample_values
           earlier_outputs answer.1 answer.2).
  apply surjective_pairing.
Defined.

Lemma validateDate_refused_witness :
  let date : gmap string (option Z) :=
    {[ "year" := Some 2018; "month" := Some 2; "day" := Some 31 ]} in
  let answer :=
    validateDate sample_isValid sample_format (Some date) earlier_outputs in
  answer.1 = "Enter a valid date"
  ∧ (answer.2 = earlier_outputs
     ∨ ∃ d year month day,
         Some date = Some d
         ∧ d !! "year" = Some (Some year)
         ∧ d !! "month" = Some (Some month)
         ∧ d !! "day" = Some (Some day)
         ∧ sample_isValid year (month - 1) day = false
         ∧ answer.2 = CreateQuoteInput.set_date None earlier_outputs).
Proof.
  intros date answer.
  apply (validateDate_refused sample_isValid sample_format (Some date)
           earlier_outputs answer.1 answer.2).
  - apply surjective_pairing.
  - vm_compute. discriminate.
Defined.

(** * What the search runs, logs and returns *)

(** C6. For every input text, [full_text_search] sends one statement to
    the repository, with one parameter, the text between two percent
    signs: that call is the only one recorded, the run depends on the
    repository through its answer to that statement and parameter alone,
    and the rows it goes on to group and log are the rows of that
    answer. The statement joins with [union] one sub-query per pair of
    table and column of the configuration, ten in all, each made of the
    words of
    [select id, <column> as text, '<table>' as source from <table> where <column> ilike $1]
    (the source breaks the line before [where] and after [$1]). *)
Theorem full_text_search_statement execute_and_load atom_exists text :
  (∃ logged,
     (full_text_search execute_and_load atom_exists text).1
     = Query search_sql ["%" +:+ text +:+ "%"] :: logged
     ∧ Forall (λ ev, ∀ sql params, ev ≠ Query sql params) logged)
  ∧ (∀ other : string → list string → list (gmap string scalar),
       other search_sql ["%" +:+ text +:+ "%"]
       = execute_and_load search_sql ["%" +:+ text +:+ "%"] →
       full_text_search other atom_exists text
       = full_text_search execute_and_load atom_exists text)
  ∧ (∀ result,
       Log_info text result
       ∈ (full_text_search execute_and_load atom_exists text).1 →
       ∀ bucket,
         result !! bucket
         = match group_of row_source bucket
                   (loaded
                      <$> execute_and_load search_sql ["%" +:+ text +:+ "%"])
           with
           | [] => None
           | group => Some group
           end)
  ∧ search_sql
    = String.concat " union "
        ((λ '(table, column), subquery table column) <$> search_pairs)
  ∧ search_pairs ≡ₚ stated_columns
  ∧ List.length search_pairs = 10%nat
  ∧ Forall
      (λ '(table, column),
         words (subquery table column)
         = words (stated_subquery table column))
      search_pairs
  ∧ words search_sql
    = words (String.concat " union "
               ((λ '(table, column), stated_subquery table column)
                  <$> search_pairs)).
Proof.
  split_and!.
  - rewrite full_text_search_eq. unfold search_params.
    destruct (search_result _ _ text); eexists; (split; [reflexivity|]).
    + constructor; [|constructor]. intros sql params. discriminate.
    + constructor.
  - intros other Hsame.
    unfold full_text_search, Repo_execute_and_load, search_params.
    by rewrite Hsame.
  - intros result Hlogged bucket.
    rewrite full_text_search_eq in Hlogged.
    destruct (search_result execute_and_load atom_exists text)
      as [result'|e] eqn:Hresult; simpl in Hlogged.
    + apply elem_of_cons in Hlogged as [|Hlogged]; [done|].
      apply list_elem_of_singleton in Hlogged. injection Hlogged as ->.
      apply (search_result_Return _ _ _ _ Hresult).
    + apply list_elem_of_singleton in Hlogged. discriminate.
  - reflexivity.
  - vm_compute. solve_Permutation.
  - reflexivity.
  - vm_compute. repeat constructor.
  - vm_compute. reflexivity.
Qed.

(** C3, as the code has it. For every input string, [full_text_search]
    runs the statement and then either computes the grouping of the rows
    of the answer by their table, logs it and returns the map literal
    instead of it, or raises with nothing logged and nothing returned.
    It returns whenever the repository answers with rows of the select
    list whose table names are atoms of the system. A value it returns
    is the literal, four rows under [:quotes] and three under [:tags],
    each mentioning downdraft, whatever the input, the repository and
    the aggregation: the values returned by two runs are equal. *)
Theorem full_text_search_literal :
  (∀ execute_and_load atom_exists text,
     (∃ result,
        full_text_search execute_and_load atom_exists text
        = ([Query search_sql (search_params text); Log_info text result],
           Return literal_result)
        ∧ ∀ bucket,
            result !! bucket
            = match group_of row_source bucket
                      (loaded
                         <$> execute_and_load search_sql (search_params text))
              with
              | [] => None
              | group => Some group
              end)
     ∨ (∃ e,
          full_text_search execute_and_load atom_exists text
          = ([Query search_sql (search_params text)], Raise e)
          ∧ (atom_exists "id" = true → atom_exists "text" = true →
             ¬ Forall (selected atom_exists)
                 (execute_and_load search_sql (search_params text)))))
  ∧ (∀ execute_and_load atom_exists text,
       atom_exists "id" = true → atom_exists "text" = true →
       Forall (selected atom_exists)
         (execute_and_load search_sql (search_params text)) →
       ∃ result,
         full_text_search execute_and_load atom_exists text
         = ([Query search_sql (search_params text); Log_info text result],
            Return literal_result)
         ∧ ∀ bucket,
             result !! bucket
             = match group_of row_source bucket
                       (loaded
                          <$> execute_and_load search_sql
                                (search_params text))
               with
               | [] => None
               | group => Some group
               end)
  ∧ (∀ execute_and_load1 atom_exists1 text1
       execute_and_load2 atom_exists2 text2 v1 v2,
       (full_text_search execute_and_load1 atom_exists1 text1).2
       = Return v1 →
       (full_text_search execute_and_load2 atom_exists2 text2).2
       = Return v2 →
       v1 = literal_result ∧ v2 = v1)
  ∧ dom literal_result = {[ "quotes"; "tags" ]}
  ∧ List.length <$> literal_result !! "quotes" = Some 4%nat
  ∧ List.length <$> literal_result !! "tags" = Some 3%nat
  ∧ map_Forall (λ _ rows, Forall (mentions "downdraft") rows) literal_result.
Proof.
  assert (Hruns : ∀ execute_and_load atom_exists text result,
            search_result execute_and_load atom_exists text = Return result →
            full_text_search execute_and_load atom_exists text
            = ([Query search_sql (search_params text); Log_info text result],
               Return literal_result)
            ∧ ∀ bucket,
                result !! bucket
                = match group_of row_source bucket
                          (loaded
                             <$> execute_and_load search_sql
                                   (search_params text))
                  with
                  | [] => None
                  | group => Some group
                  end).
  { intros execute_and_load atom_exists text result Hresult. split.
    - by apply full_text_search_of_result.
    - exact (search_result_Return execute_and_load atom_exists text result
               Hresult). }
  split_and!.
  - intros execute_and_load atom_exists text.
    destruct (search_result execute_and_load atom_exists text)
      as [result|e] eqn:Hresult.
    + left. exists result. by apply Hruns.
    + right. exists e. split.
      * by rewrite full_text_search_eq, Hresult.
      * intros Hid Htext Hanswer.
        destruct (search_result_total _ _ text Hid Htext Hanswer)
          as [result Hreturns].
        congruence.
  - intros execute_and_load atom_exists text Hid Htext Hanswer.
    destruct (search_result_total _ _ text Hid Htext Hanswer)
      as [result Hresult].
    exists result. by apply Hruns.
  - intros e1 a1 text1 e2 a2 text2 v1 v2 H1%full_text_search_Return
      H2%full_text_search_Return. by subst.
  - by vm_compute.
  - reflexivity.
  - reflexivity.
  - unfold literal_result.
    apply map_Forall_insert_2; [|apply map_Forall_singleton];
      repeat constructor; eexists; (split; [reflexivity|]);
      vm_compute; eauto.
Qed.

(** A source type matches while [:source_types] is not yet an atom: the
    search raises; it logs nothing and returns nothing, not even the
    literal. *)
Lemma full_text_search_raises_without_atom :
  full_text_search one_source_type atoms_of_module "journal"
  = ([Query search_sql (search_params "journal")], Raise ArgumentError)
  ∧ (full_text_search one_source_type atoms_of_module "journal").2
    ≠ Return literal_result
  ∧ ¬ ∃ result,
        Log_info "journal" result
        ∈ (full_text_search one_source_type atoms_of_module "journal").1.
Proof.
  assert (Hrun : full_text_search one_source_type atoms_of_module "journal"
                 = ([Query search_sql (search_params "journal")],
                    Raise ArgumentError)) by (vm_compute; reflexivity).
  rewrite Hrun. split_and!; [done | done |].
  intros [result Hin]. simpl in Hin.
  apply list_elem_of_singleton in Hin. discriminate.
Qed.

Lemma full_text_search_literal_witness :
  ∃ result,
    full_text_search one_tag every_atom "downdraft"
    = ([Query search_sql (search_params "downdraft");
        Log_info "downdraft" result],
       Return literal_result)
    ∧ ∀ bucket,
        result !! bucket
        = match group_of row_source bucket
                  (loaded <$> one_tag search_sql (search_params "downdraft"))
          with
          | [] => None
          | group => Some group
          end.
Proof.
  apply (proj1 (proj2 full_text_search_literal) one_tag every_atom
           "downdraft").
  - reflexivity.
  - reflexivity.
  - apply one_tag_selected.
Defined.

Lemma full_text_search_statement_witness :
  ∃ result,
    Log_info "downdraft" result
    ∈ (full_text_search one_tag every_atom "downdraft").1
    ∧ ∀ bucket,
        result !! bucket
        = match group_of row_source bucket
                  (loaded <$> one_tag search_sql ["%" +:+ "downdraft" +:+ "%"])
          with
          | [] => None
          | group => Some group
          end.
Proof.
  destruct (search_result_total one_tag every_atom "downdraft" eq_refl
              eq_refl (one_tag_selected "downdraft")) as [result Hresult].
  assert (Hlogged : Log_info "downdraft" result
                    ∈ (full_text_search one_tag every_atom "downdraft").1).
  { rewrite (full_text_search_of_result _ _ _ _ Hresult). right. left. }
  exists result. split; [exact Hlogged|].
  exact (proj1 (proj2 (proj2 (full_text_search_statement one_tag every_atom
                                "downdraft"))) result Hlogged).
Defined.
